(** * MIDOParser: the MIDI byte-stream parser and the pianoroll converters

    A shallow embedding of [src/MIDOParser.py].  The file has two halves,
    like the Python module: the [Parser] class with [parse_all] and
    [parse], and the two free functions [notes2pianoroll] and
    [pianoroll2notes].

    Python state is threaded explicitly.  A method of an object is a
    function from the object's state to an outcome (a value or a raised
    exception) and the state the call leaves behind; an exception keeps
    the mutations made before it was raised, as in Python. *)

From Stdlib Require Import ZArith QArith Lia.
From stdpp Require Import base option list sorting gmap.
From Equations Require Import Equations.
From Equations.Prop Require Import Logic.

Local Open Scope Z_scope.

(** ** Outcomes and the state-and-exception monad *)

Inductive exn : Type :=
| InvalidInput   (* a fed value is outside 0..255 *)
| DecodeError    (* [Message.from_bytes] rejected a token *)
| IndexError.    (* [popleft] on an empty deque *)

Inductive outcome (A : Type) : Type :=
| Ok (a : A)
| Raise (e : exn).
Arguments Ok {A} a.
Arguments Raise {A} e.

Definition M (S A : Type) : Type := S -> outcome A * S.

#[global] Instance M_ret {S} : MRet (M S) :=
  fun A (a : A) s => (Ok a, s).

#[global] Instance M_bind {S} : MBind (M S) :=
  fun A B (k : A -> M S B) (m : M S A) s =>
    match m s with
    | (Ok a, s') => k a s'
    | (Raise e, s') => (Raise e, s')
    end.

#[global] Instance outcome_ret : MRet outcome := fun A (a : A) => Ok a.

#[global] Instance outcome_bind : MBind outcome :=
  fun A B (k : A -> outcome B) (m : outcome A) =>
    match m with
    | Ok a => k a
    | Raise e => Raise e
    end.

Definition raise {S A} (e : exn) : M S A := fun s => (Raise e, s).
Definition modify {S} (f : S -> S) : M S unit := fun s => (Ok tt, f s).

(** A MIDI token: the bytes of one framed message. *)
Definition token : Type := list Z.

(** ** Collaborators that live outside [MIDOParser.py]

    [from .messages import Message] and the table of message lengths
    used by the tokenizer are not part of the file; they are taken as
    parameters.  [from_bytes] answers [None] where the Python
    [Message.from_bytes] raises. *)

Class MessageCodec : Type := {
  Message : Type;
  from_bytes : token -> option Message
}.

Class StatusTable : Type := {
  (* number of data bytes that follow a status byte; [None] for a status
     byte with no defined count *)
  data_len : Z -> option nat
}.

(** ** The Tokenizer *)

Module Tokenizer.

(** Modelled from the spec: the [Tokenizer] class of [.tokenizer],
    imported by [MIDOParser.py] but absent from the sources.  The
    fields are the ones section 9 of the specification names. *)
Record framing : Type := {
  running_status : option Z;        (* last channel-voice status byte *)
  message : option (Z * list Z);    (* open message: status, data so far *)
  sysex : option (list Z)           (* sysex accumulation buffer *)
}.

(** Modelled from the spec: the state of a [Tokenizer] object, the
    framing state and the internal ready-token list of section 4.1. *)
Record t : Type := {
  state : framing;
  ready : list token                (* the ready-token list *)
}.

(** Modelled from the spec: [Tokenizer()]; construction gives an empty
    tokenizer with no running status (section 3, Lifecycle). *)
Definition new : t :=
  {| state := {| running_status := None; message := None; sysex := None |};
     ready := [] |}.

(** Modelled from the spec: the byte classes of section 3, for the
    absent [Tokenizer]: a byte is in 0..255, a realtime byte in
    0xF8..0xFF, a status byte has bit 7 set, a channel-voice status byte
    is in 0x80..0xEF. *)
Definition is_byte (b : Z) : bool := (0 <=? b) && (b <=? 255).

(** Modelled from the spec: system realtime bytes (section 3). *)
Definition is_realtime (b : Z) : bool := (0xF8 <=? b) && (b <=? 0xFF).

(** Modelled from the spec: status bytes (section 3). *)
Definition is_status (b : Z) : bool := 0x80 <=? b.

(** Modelled from the spec: channel-voice status bytes (section 3). *)
Definition is_channel_voice (b : Z) : bool := (0x80 <=? b) && (b <=? 0xEF).

(** Modelled from the spec: the expected data-byte count used by the
    absent [Tokenizer]; a status byte with no defined count takes zero
    data bytes (section 4.1, edge-case policy). *)
Definition expected_len `{StatusTable} (status : Z) : nat :=
  default 0%nat (data_len status).

(** Modelled from the spec: the per-byte algorithm of the absent
    [Tokenizer], section 4.1,
    steps 1 to 5 in order.  The result is the new framing state and the
    token completed by this byte, if any.  A message whose status byte
    takes no data byte is fully framed by the status byte alone and is
    emitted at once; a system message (0xF0..0xF7) clears the running
    status (section 3). *)
Definition frame_byte `{StatusTable} (f : framing) (b : Z)
  : framing * option token :=
  if is_realtime b then
    (* 1. realtime: a one-byte token, nothing else changes *)
    (f, Some [b])
  else if b =? 0xF0 then
    (* 2. sysex start: new buffer, open message discarded *)
    ({| running_status := None; message := None; sysex := Some [b] |}, None)
  else
    match sysex f with
    | Some buf =>
        (* 3. inside sysex *)
        if b =? 0xF7 then
          ({| running_status := running_status f; message := message f;
              sysex := None |}, Some (buf ++ [b]))
        else
          ({| running_status := running_status f; message := message f;
              sysex := Some (buf ++ [b]) |}, None)
    | None =>
        if is_status b then
          (* 4. explicit status byte *)
          let rs := if is_channel_voice b then Some b else None in
          if Nat.eqb (expected_len b) 0 then
            ({| running_status := rs; message := None; sysex := None |},
             Some [b])
          else
            ({| running_status := rs; message := Some (b, []);
                sysex := None |}, None)
        else
          (* 5. data byte *)
          let open :=
            match message f with
            | Some m => Some m
            | None =>
                match running_status f with
                | Some s => Some (s, [])
                | None => None
                end
            end in
          match open with
          | None => (f, None)          (* orphan data byte: discarded *)
          | Some (s, acc) =>
              let acc' := acc ++ [b] in
              if Nat.eqb (length acc') (expected_len s) then
                ({| running_status := running_status f; message := None;
                    sysex := None |}, Some (s :: acc'))
              else
                ({| running_status := running_status f;
                    message := Some (s, acc'); sysex := None |}, None)
          end
    end.

(** Modelled from the spec: what a byte appends to the ready list of
    the absent [Tokenizer], the token it completed or nothing. *)
Definition emitted (o : option token) : list token :=
  match o with Some tok => [tok] | None => [] end.

(** Modelled from the spec: [Tokenizer.feed_byte(byte)], absent from
    the sources.  A value outside 0..255
    fails with InvalidInput and leaves the tokenizer as it was;
    otherwise the byte is framed and a completed token is appended to
    the ready list. *)
Definition feed_byte `{StatusTable} (byte : Z) : M t unit :=
  fun tk =>
    if is_byte byte then
      let '(f, o) := frame_byte (state tk) byte in
      (Ok tt, {| state := f; ready := ready tk ++ emitted o |})
    else (Raise InvalidInput, tk).

(** Modelled from the spec: [Tokenizer.feed(bytes)], absent from the
    sources, processes the bytes strictly
    in order and fails at the first value outside 0..255; the bytes
    before it have been processed, the ones after it have not
    (section 7: "fails immediately, no state mutated for that call's
    remaining bytes beyond the point of failure"). *)
Fixpoint feed `{StatusTable} (data : list Z) : M t unit :=
  match data with
  | [] => mret tt
  | byte :: rest => feed_byte byte ≫= fun _ => feed rest
  end.

(** Modelled from the spec: one step of the iteration over the absent
    [Tokenizer], which removes the oldest ready token and yields it, or
    stops when none is ready (section 4.1). *)
Definition __next__ : M t (option token) :=
  fun tk =>
    match ready tk with
    | [] => (Ok None, tk)
    | tok :: rest => (Ok (Some tok), {| state := state tk; ready := rest |})
    end.

(** Modelled from the spec: the number of ready tokens of the absent
    [Tokenizer]. *)
Definition __len__ (tk : t) : nat := length (ready tk).

End Tokenizer.

(** ** The Parser (lines 11 to 72 of [MIDOParser.py]) *)

Module Parser.

Section WithCollaborators.
Context `{MessageCodec} `{StatusTable}.

Record t : Type := {
  messages : list Message;     (* the deque of parsed messages *)
  _tok : Tokenizer.t
}.

(** A call on [self._tok]. *)
Definition on_tok {A} (m : M Tokenizer.t A) : M t A :=
  fun p =>
    let '(r, tk) := m (_tok p) in
    (r, {| messages := messages p; _tok := tk |}).

(** [self.messages.append(msg)] *)
Definition append (msg : Message) : M t unit :=
  modify (fun p => {| messages := messages p ++ [msg]; _tok := _tok p |}).

(** [Message.from_bytes(midi_bytes)], raising DecodeError where the
    collaborator rejects the token. *)
Definition decode (midi_bytes : token) : M t Message :=
  match from_bytes midi_bytes with
  | Some msg => mret msg
  | None => raise DecodeError
  end.

(** [_decode]: [for midi_bytes in self._tok: self.messages.append(...)].
    The loop pulls tokens from the tokenizer one at a time, so a token is
    gone from the tokenizer when the body runs; the number of ready
    tokens decreases at every turn. *)
Equations? _decode (p : t) : outcome unit * t
  by wf (Tokenizer.__len__ (_tok p)) lt :=
  _decode p with inspect (on_tok Tokenizer.__next__ p) => {
    | exist _ (Raise e, p1) E => (Raise e, p1)
    | exist _ (Ok None, p1) E => (Ok tt, p1)
    | exist _ (Ok (Some midi_bytes), p1) E
        with inspect ((decode midi_bytes ≫= append) p1) => {
        | exist _ (Raise e, p2) E2 => (Raise e, p2)
        | exist _ (Ok _, p2) E2 => _decode p2 } }.
Proof.
  unfold on_tok, Tokenizer.__next__, Tokenizer.__len__ in *.
  destruct (Tokenizer.ready (_tok p)) as [|tok rest] eqn:R; simplify_eq/=.
  unfold mbind, M_bind, decode, append, modify in E2.
  destruct (from_bytes midi_bytes); simplify_eq/=. lia.
Qed.

(** [feed(data)] *)
Definition feed (data : list Z) : M t unit :=
  on_tok (Tokenizer.feed data) ≫= fun _ => _decode.

(** [feed_byte(byte)] *)
Definition feed_byte (byte : Z) : M t unit :=
  on_tok (Tokenizer.feed_byte byte) ≫= fun _ => _decode.

(** [pending()], also [__len__]: [len(self.messages)]. *)
Definition pending : M t nat :=
  fun p => (Ok (length (messages p)), p).

(** [self.messages.popleft()] *)
Definition popleft : M t Message :=
  fun p =>
    match messages p with
    | [] => (Raise IndexError, p)
    | msg :: rest => (Ok msg, {| messages := rest; _tok := _tok p |})
    end.

(** One resumption of the generator [__iter__]: the loop test
    [len(self.messages) > 0], then either the next [yield] ([Some]) or
    the end of the iteration ([None]). *)
Definition __next__ : M t (option Message) :=
  pending ≫= fun n =>
  if (0 <? n)%nat then popleft ≫= fun msg => mret (Some msg)
  else mret None.

(** [get_message()]: the [for] loop returns at the first message the
    iterator yields; its [else] branch runs when the iterator yields
    nothing. *)
Definition get_message : M t (option Message) :=
  __next__ ≫= fun o =>
  match o with
  | Some msg => mret (Some msg)
  | None => mret None
  end.

(** [list(parser)]: the generator [__iter__] run until it stops, the
    yielded messages collected in order behind [acc]. *)
Equations? __iter__ (acc : list Message) (p : t) : outcome (list Message) * t
  by wf (length (messages p)) lt :=
  __iter__ acc p with inspect (__next__ p) => {
    | exist _ (Raise e, p1) E => (Raise e, p1)
    | exist _ (Ok None, p1) E => (Ok acc, p1)
    | exist _ (Ok (Some msg), p1) E => __iter__ (acc ++ [msg]) p1 }.
Proof.
  unfold __next__, pending, popleft, mbind, M_bind, mret, M_ret in E.
  destruct p as [[|m rest] tk]; simplify_eq/=. lia.
Qed.

(** [Parser(data)]: [__init__] on a new object. *)
Definition __init__ (data : list Z) : outcome unit * t :=
  let self := {| messages := []; _tok := Tokenizer.new |} in
  match data with
  | [] => (Ok tt, self)              (* [if data:] is false *)
  | _ :: _ => feed data self
  end.

End WithCollaborators.
End Parser.

(** [parse_all(data)]: [list(Parser(data))].  The second component is
    the state of the local parser when the function returns. *)
Definition parse_all_run `{MessageCodec} `{StatusTable} (data : list Z)
  : outcome (list Message) * Parser.t :=
  match Parser.__init__ data with
  | (Ok _, p) => Parser.__iter__ [] p
  | (Raise e, p) => (Raise e, p)
  end.

Definition parse_all `{MessageCodec} `{StatusTable} (data : list Z)
  : outcome (list Message) :=
  fst (parse_all_run data).

(** [parse(data)]: [Parser(data).get_message()]. *)
Definition parse_run `{MessageCodec} `{StatusTable} (data : list Z)
  : outcome (option Message) * Parser.t :=
  match Parser.__init__ data with
  | (Ok _, p) => Parser.get_message p
  | (Raise e, p) => (Raise e, p)
  end.

Definition parse `{MessageCodec} `{StatusTable} (data : list Z)
  : outcome (option Message) :=
  fst (parse_run data).

(** *** Instances of the collaborators, to run the parser on examples *)

(** The data-byte counts of MIDI 1.0: two for note off, note on,
    polytouch, control change and pitchwheel, one for program change and
    aftertouch; among the system common bytes one for 0xF1 and 0xF3, two
    for 0xF2, none for 0xF6; none defined for the rest. *)
Definition midi_status_table : StatusTable := {|
  data_len status :=
    if (0x80 <=? status) && (status <=? 0xBF) then Some 2%nat
    else if (0xC0 <=? status) && (status <=? 0xDF) then Some 1%nat
    else if (0xE0 <=? status) && (status <=? 0xEF) then Some 2%nat
    else if (status =? 0xF1) || (status =? 0xF3) then Some 1%nat
    else if status =? 0xF2 then Some 2%nat
    else if status =? 0xF6 then Some 0%nat
    else None
|}.

(** A decoder that keeps the bytes of the token as the message. *)
Definition raw_codec : MessageCodec := {|
  Message := token;
  from_bytes tok := Some tok
|}.

(** A decoder that rejects every sysex token. *)
Definition no_sysex_codec : MessageCodec := {|
  Message := token;
  from_bytes tok := match tok with 0xF0 :: _ => None | _ => Some tok end
|}.


(** ** Notes and the object store (lines 92 to 200 of [MIDOParser.py])

    A [ct.Note] is an object with four integer attributes.  Python
    passes notes by reference and [notes2pianoroll] assigns to their
    attributes, so notes live in a store and a note stream is a list of
    addresses: two positions of a stream may hold the same note. *)

Record Note : Type := {
  velocity : Z;
  pitch : Z;
  start : Z;
  end_ : Z            (* the attribute [end] *)
}.

#[global] Instance Note_inhabited : Inhabited Note :=
  populate {| velocity := 0; pitch := 0; start := 0; end_ := 0 |}.

Definition loc : Type := nat.
Abbreviation heap := (gmap loc Note).

(** Attribute assignment through a reference. *)
Definition set_start (r : loc) (v : Z) (h : heap) : heap :=
  let n := h !!! r in
  <[r := {| velocity := velocity n; pitch := pitch n; start := v;
            end_ := end_ n |}]> h.

Definition set_end (r : loc) (v : Z) (h : heap) : heap :=
  let n := h !!! r in
  <[r := {| velocity := velocity n; pitch := pitch n; start := start n;
            end_ := v |}]> h.

(** [deepcopy] of a list of notes.  Every distinct note is copied once
    into a newly allocated object; [memo] maps an original to its copy,
    so positions that shared a note share the copy. *)
Fixpoint deepcopy_notes (h : heap) (memo : gmap loc loc) (xs : list loc)
  : heap * list loc :=
  match xs with
  | [] => (h, [])
  | x :: rest =>
      match memo !! x with
      | Some y =>
          let '(h', ys) := deepcopy_notes h memo rest in (h', y :: ys)
      | None =>
          let y := fresh (dom h) in
          let '(h', ys) :=
            deepcopy_notes (<[y := h !!! x]> h) (<[x := y]> memo) rest in
          (h', y :: ys)
      end
  end.

Definition deepcopy (h : heap) (xs : list loc) : heap * list loc :=
  deepcopy_notes h ∅ xs.

(** [sorted(xs, key=...)]: a stable sort, here by insertion. *)
Fixpoint insert_by {A} (key : A -> Z) (x : A) (l : list A) : list A :=
  match l with
  | [] => [x]
  | y :: l' => if key x <=? key y then x :: y :: l' else y :: insert_by key x l'
  end.

Definition sorted {A} (key : A -> Z) (l : list A) : list A :=
  foldr (insert_by key) [] l.

(** [np.arange(a, b)] on integers and [[x] * n]. *)
Definition arange (a b : Z) : list Z :=
  (fun i => a + Z.of_nat i) <$> seq 0 (Z.to_nat (b - a)).

Definition times {A} (x : A) (n : Z) : list A := replicate (Z.to_nat n) x.

Definition Qlt_bool (x y : Q) : bool := negb (Qle_bool y x).

(** The keyword arguments of [notes2pianoroll] that the body reads
    ([ticks_per_beat] and [downbeat] are never used).  The resampling
    arithmetic is floating point: [resample] is [None] when
    [resample_factor == 1.0] and otherwise the function
    [fun t => int(resample_method(t * resample_factor))]. *)
Record n2p_args : Type := {
  resample : option (Z -> Z);
  binary_thres : option Q;
  max_tick : option Z;
  to_sparse : bool;
  keep_note : bool
}.

(** A value stored in the pianoroll: a velocity, or the truth value
    [velocity > binary_thres]. *)
Inductive cell : Type :=
| Vel (v : Z)
| Flag (b : bool).

(** The three coordinate lists the loop builds. *)
Record coo : Type := {
  time_coo : list Z;
  pitch_coo : list Z;
  velocity_coo : list cell
}.

(** The result: the arguments handed to [csc_matrix] (the SciPy
    constructor is not interpreted), and whether the matrix is returned
    sparse or after [toarray()]. *)
Record pianoroll_of_notes : Type := {
  entries : coo;
  shape : Z * Z;
  sparse : bool
}.

Definition PITCH_RANGE : Z := 128.

(** The resampling loop, lines 133 to 135. *)
Definition resample_note (f : Z -> Z) (h : heap) (note : loc) : heap :=
  let h1 := set_start note (f (start (h !!! note))) h in
  set_end note (f (end_ (h1 !!! note))) h1.

(** The body of the loop of lines 142 to 165, for one note. *)
Definition fill_note (a : n2p_args) (st : heap * coo) (note : loc)
  : heap * coo :=
  let '(h, c) := st in
  (* discard notes having no velocity *)
  if velocity (h !!! note) =? 0 then (h, c)
  else
    let duration := end_ (h !!! note) - start (h !!! note) in
    (* keep notes with zero length (set to 1) *)
    let '(duration, h) :=
      if keep_note a && (duration =? 0)
      then (1, set_end note (end_ (h !!! note) + 1) h)
      else (duration, h) in
    let v_tmp :=
      match binary_thres a with
      | Some thres => Flag (Qlt_bool thres (inject_Z (velocity (h !!! note))))
      | None => Vel (velocity (h !!! note))
      end in
    (h, {| time_coo :=
             time_coo c ++ arange (start (h !!! note)) (end_ (h !!! note));
           pitch_coo := pitch_coo c ++ times (pitch (h !!! note)) duration;
           velocity_coo := velocity_coo c ++ times v_tmp duration |}).

Definition empty_coo : coo :=
  {| time_coo := []; pitch_coo := []; velocity_coo := [] |}.

(** The statements of [notes2pianoroll] before the fill loop: the copy,
    the sort by end time, [max_tick] and the resampling.  The result is
    the store, the working note stream and [max_tick]. *)
Definition prepare (a : n2p_args) (h : heap) (note_stream_ori : list loc)
  : heap * list loc * Z :=
  (* pass by value *)
  let '(h, note_stream) := deepcopy h note_stream_ori in
  (* sort by end time *)
  let note_stream := sorted (fun x => end_ (h !!! x)) note_stream in
  (* set max tick *)
  let max_tick :=
    match max_tick a with
    | Some m => m
    | None =>
        match last note_stream with
        | None => 0
        | Some x => end_ (h !!! x)
        end
    end in
  (* resampling *)
  match resample a with
  | Some f => (foldl (resample_note f) h note_stream, note_stream, f max_tick)
  | None => (h, note_stream, max_tick)
  end.

(** [notes2pianoroll]: the returned pianoroll and the store the call
    leaves behind. *)
Definition notes2pianoroll (a : n2p_args) (h : heap)
    (note_stream_ori : list loc) : pianoroll_of_notes * heap :=
  let '(h, note_stream, max_tick) := prepare a h note_stream_ori in
  let '(h, c) := foldl (fill_note a) (h, empty_coo) note_stream in
  ({| entries := c; shape := (max_tick, PITCH_RANGE);
      sparse := to_sparse a |}, h).

(** ** [pianoroll2notes] (lines 174 to 200)

    A two-dimensional NumPy array is its shape and its items.  The items
    are rationals: every finite value of an integer, boolean or floating
    point array is one, and the comparisons and the truncation [int()]
    that the function applies to them are exact. *)

Record ndarray : Type := {
  nrows : nat;                    (* time steps *)
  ncols : nat;                    (* pitches *)
  item : nat -> nat -> Q
}.

(** [a[i, j]] *)
Definition getitem (a : ndarray) (i j : nat) : outcome Q :=
  if (i <? nrows a)%nat && (j <? ncols a)%nat then Ok (item a i j)
  else Raise IndexError.

(** [xs[i]] on a one-dimensional array *)
Definition index {A} (xs : list A) (i : nat) : outcome A :=
  match xs !! i with
  | Some x => Ok x
  | None => Raise IndexError
  end.

(** [binarized = pianoroll > 0] *)
Definition binarized (a : ndarray) (i j : nat) : bool :=
  Qlt_bool 0 (item a i j).

(** [padded = np.pad(binarized, ((1, 1), (0, 0)), "constant")]: one row
    of [False] before and one after; [nrows a + 2] rows. *)
Definition padded (a : ndarray) (i j : nat) : bool :=
  match i with
  | O => false
  | S i' => if (i' <? nrows a)%nat then binarized a i' j else false
  end.

Definition astype_int8 (b : bool) : Z := if b then 1 else 0.

(** [diff = np.diff(padded.astype(np.int8), axis=0)]; [nrows a + 1]
    rows. *)
Definition diff (a : ndarray) (i j : nat) : Z :=
  astype_int8 (padded a (S i) j) - astype_int8 (padded a i j).

(** [np.nonzero(m.T)] for a boolean matrix [m] of [nr] rows and [nc]
    columns: the positions of the true items of the transpose, in
    row-major order, so by column of [m] and then by row of [m].  The
    first components are [np.nonzero(m.T)[0]], the second
    [np.nonzero(m.T)[1]]. *)
Definition nonzero_T (m : nat -> nat -> bool) (nr nc : nat)
  : list (nat * nat) :=
  flat_map (fun j =>
    flat_map (fun i => if m i j then [(j, i)] else []) (seq 0 nr))
    (seq 0 nc).

(** [max(0, min(127, velocity))], with the order in which Python's [min]
    and [max] compare their arguments. *)
Definition clamp (v : Q) : Q :=
  let m := if Qlt_bool v 127 then v else 127%Q in
  if Qlt_bool 0 m then m else 0%Q.

(** [int(x)]: truncation towards zero. *)
Definition int (x : Q) : Z := Z.quot (Qnum x) (Zpos (Qden x)).

(** The loop of lines 188 to 198, from position [idx] of [pitches] on.
    [scale] is [fun t => int(t * resample_factor)], floating point
    arithmetic that is not interpreted. *)
Fixpoint notes_loop (pianoroll : ndarray) (scale : Z -> Z)
    (note_ons note_offs : list nat) (idx : nat) (pitches : list nat)
    (notes : list Note) : outcome (list Note) :=
  match pitches with
  | [] => Ok notes
  | pitch :: rest =>
      st ← index note_ons idx;
      ed ← index note_offs idx;
      velocity ← getitem pianoroll st pitch;
      let velocity := clamp velocity in
      notes_loop pianoroll scale note_ons note_offs (S idx) rest
        (notes ++ [{| velocity := int velocity;
                      pitch := Z.of_nat pitch;
                      start := scale (Z.of_nat st);
                      end_ := scale (Z.of_nat ed) |}])
  end.

Definition pianoroll2notes (pianoroll : ndarray) (scale : Z -> Z)
  : outcome (list Note) :=
  let positives :=
    nonzero_T (fun i j => 0 <? diff pianoroll i j)
      (S (nrows pianoroll)) (ncols pianoroll) in
  let pitches := positives.*1 in
  let note_ons := positives.*2 in
  let note_offs :=
    (nonzero_T (fun i j => diff pianoroll i j <? 0)
       (S (nrows pianoroll)) (ncols pianoroll)).*2 in
  notes ← notes_loop pianoroll scale note_ons note_offs 0 pitches [];
  Ok (sorted start notes).

(** An array given by its rows, for examples. *)
Definition array_of_rows (nc : nat) (rows : list (list Q)) : ndarray :=
  {| nrows := length rows; ncols := nc;
     item i j := nth j (nth i rows []) 0%Q |}.

(** *** Instances of the arguments, to run the converters on examples *)
Definition default_args : n2p_args :=
  {| resample := None; binary_thres := None; max_tick := None;
     to_sparse := false; keep_note := true |}.

(** ** Derived notions used in the statements and proofs *)

(** What [_decode] does to the ready tokens [toks] and the queue [msgs],
    by recursion on the tokens: the outcome, the tokens left in the
    tokenizer and the queue. *)
Fixpoint drain `{MessageCodec} (toks : list token) (msgs : list Message)
  : outcome unit * list token * list Message :=
  match toks with
  | [] => (Ok tt, [], msgs)
  | tok :: rest =>
      match from_bytes tok with
      | Some msg => drain rest (msgs ++ [msg])
      | None => (Raise DecodeError, rest, msgs)
      end
  end.

(** A caller that streams [data] one byte at a time:
    [for byte in data: parser.feed_byte(byte)]. *)
Fixpoint feed_each `{MessageCodec} `{StatusTable} (data : list Z)
  : M Parser.t unit :=
  match data with
  | [] => mret tt
  | byte :: rest => Parser.feed_byte byte ≫= fun _ => feed_each rest
  end.

(** A caller that pops until the parser has nothing left:
    [while (msg := parser.get_message()) is not None: acc.append(msg)]. *)
Equations? pop_all `{MessageCodec} `{StatusTable}
    (acc : list Message) (p : Parser.t) : outcome (list Message) * Parser.t
  by wf (length (Parser.messages p)) lt :=
  pop_all acc p with inspect (Parser.get_message p) => {
    | exist _ (Raise e, p1) E => (Raise e, p1)
    | exist _ (Ok None, p1) E => (Ok acc, p1)
    | exist _ (Ok (Some msg), p1) E => pop_all (acc ++ [msg]) p1 }.
Proof.
  unfold Parser.get_message, Parser.__next__, Parser.pending, Parser.popleft,
    mbind, M_bind, mret, M_ret in E.
  destruct p as [[|m rest] tk]; simplify_eq/=. lia.
Qed.

(** *** Concrete states and stores for the examples *)

(** The parser and the tokenizer states used below; [raw] reads a list
    of tokens as messages of [raw_codec]. *)
Definition raw (msgs : list token) : list (@Message raw_codec) := msgs.

Definition new_raw_parser : @Parser.t raw_codec :=
  (@Parser.__init__ raw_codec midi_status_table []).2.

Definition note_on_running : Tokenizer.framing :=
  {| Tokenizer.running_status := Some 0x90; Tokenizer.message := None;
     Tokenizer.sysex := None |}.

(** A store with three notes: one of them has no velocity, one has no
    duration. *)
Definition three_notes : heap :=
  {[ 0%nat := {| velocity := 100; pitch := 60; start := 0; end_ := 4 |};
     1%nat := {| velocity := 0; pitch := 61; start := 2; end_ := 3 |};
     2%nat := {| velocity := 90; pitch := 62; start := 2; end_ := 2 |} ]}.

Definition doubling_args : n2p_args :=
  {| resample := Some (fun t => 2 * t); binary_thres := None;
     max_tick := None; to_sparse := false; keep_note := true |}.


(** ** Further callers and notions used in the statements *)

(** A caller that asks for a message [k] times:
    [[parser.get_message() for _ in range(k)]]. *)
Fixpoint get_messages `{MessageCodec} (k : nat)
  : M Parser.t (list (option Message)) :=
  match k with
  | O => mret []
  | S k' =>
      Parser.get_message ≫= fun o =>
      get_messages k' ≫= fun os => mret (o :: os)
  end.

(** Two stores give every note the same pitch and the same velocity. *)
Definition same_pitch_velocity (h h' : heap) : Prop :=
  forall y, pitch (h' !!! y) = pitch (h !!! y)
            /\ velocity (h' !!! y) = velocity (h !!! y).

(** The value stored for a note of velocity [v]: lines 162 to 164 of
    [notes2pianoroll]. *)
Definition cell_of (a : n2p_args) (v : Z) : cell :=
  match binary_thres a with
  | Some thres => Flag (Qlt_bool thres (inject_Z v))
  | None => Vel v
  end.

(** [st .. ed - 1] is a maximal run of positive items in column [p] of
    the array: the items of rows [st] to [ed - 1] are positive, the item
    before the run, if there is one, is not, and neither is the item
    after it. *)
Definition is_run (a : ndarray) (p st ed : nat) : Prop :=
  (st < ed <= nrows a)%nat
  /\ (p < ncols a)%nat
  /\ (forall i, (st <= i < ed)%nat -> (0 < item a i p)%Q)
  /\ (st = 0%nat \/ ~ (0 < item a (st - 1) p)%Q)
  /\ (ed = nrows a \/ ~ (0 < item a ed p)%Q).

(** The note that lines 191 to 198 of [pianoroll2notes] build for a
    note-on at row [st] and a note-off at row [ed] of column [p]. *)
Definition note_of_run (a : ndarray) (scale : Z -> Z) (p st ed : nat) : Note :=
  {| velocity := int (clamp (item a st p));
     pitch := Z.of_nat p;
     start := scale (Z.of_nat st);
     end_ := scale (Z.of_nat ed) |}.

(** The rows [i < n] at which column [j] of a boolean matrix is true, in
    increasing order. *)
Definition col_idx (m : nat -> nat -> bool) (j n : nat) : list nat :=
  filter (fun i => m i j = true) (seq 0 n).

(** A note-on index [s] and a note-off index [e] of the padded column
    [j] that belong together. *)
Definition padded_run (a : ndarray) (j : nat) (se : nat * nat) : Prop :=
  (se.1 < se.2)%nat
  /\ padded a se.1 j = false
  /\ (forall i, (se.1 < i <= se.2)%nat -> padded a i j = true)
  /\ padded a (S se.2) j = false.

(** *** [notes2pianoroll] on note values

    What the body of [notes2pianoroll] computes from the attribute
    values of the notes when no two positions of the stream share a
    note: the same statements as lines 123 to 165, on values instead of
    references. *)

(** Lines 134 and 135 on a value. *)
Definition resample_value (a : n2p_args) (n : Note) : Note :=
  match resample a with
  | Some f => {| velocity := velocity n; pitch := pitch n;
                 start := f (start n); end_ := f (end_ n) |}
  | None => n
  end.

(** Lines 143 to 165 on a value: the coordinates one note adds. *)
Definition note_entries (a : n2p_args) (n : Note) : coo :=
  if velocity n =? 0 then empty_coo
  else
    let duration := end_ n - start n in
    let '(duration, note_end) :=
      if keep_note a && (duration =? 0) then (1, end_ n + 1)
      else (duration, end_ n) in
    {| time_coo := arange (start n) note_end;
       pitch_coo := times (pitch n) duration;
       velocity_coo := times (cell_of a (velocity n)) duration |}.

Definition coo_app (c1 c2 : coo) : coo :=
  {| time_coo := time_coo c1 ++ time_coo c2;
     pitch_coo := pitch_coo c1 ++ pitch_coo c2;
     velocity_coo := velocity_coo c1 ++ velocity_coo c2 |}.

(** The coordinate lists for a list of note values: sort by end time,
    resample, add the entries of each note in turn. *)
Definition entries_of_values (a : n2p_args) (notes : list Note) : coo :=
  foldl (fun c n => coo_app c (note_entries a n)) empty_coo
    (resample_value a <$> sorted end_ notes).

(** The note-ons of [pianoroll2notes] paired with its note-offs, in the
    order of the loop: triples of a column, a note-on row and a note-off
    row. *)
Definition run_list (a : ndarray) : list (nat * nat * nat) :=
  zip (flat_map (fun j => pair j <$> col_idx (fun i j => 0 <? diff a i j)
                                       j (S (nrows a)))
         (seq 0 (ncols a)))
      (flat_map (fun j => col_idx (fun i j => diff a i j <? 0)
                            j (S (nrows a)))
         (seq 0 (ncols a))).

(** *** Further concrete inputs for the examples *)

(** Two columns: a run of rows 1..2 in column 0, runs of rows 0..1 and
    of row 3 in column 1. *)
Definition two_pitches : ndarray :=
  array_of_rows 2 [[0; 5]; [3; 5]; [3; 0]; [0; 200]]%Q.

(** Two rows and two columns without a positive item. *)
Definition silence : ndarray :=
  array_of_rows 2 [[0; 0]; [0; -1]]%Q.

(** The tokenizer after a note-on, an empty sysex message and a clock
    byte. *)
Definition after_sysex : Tokenizer.t :=
  {| Tokenizer.state :=
       {| Tokenizer.running_status := None; Tokenizer.message := None;
          Tokenizer.sysex := None |};
     Tokenizer.ready := [[0x90; 60; 127]; [0xF0; 0xF7]; [0xF8]] |}.

(** A list of tokens read as messages of [no_sysex_codec]. *)
Definition strict (msgs : list token) : list (@Message no_sysex_codec) := msgs.

Definition new_strict_parser : @Parser.t no_sysex_codec :=
  (@Parser.__init__ no_sysex_codec midi_status_table []).2.

(** * Properties of the parser *)

Section ParserFacts.
Context `{MessageCodec} `{StatusTable}.
Import Parser.

(** The loops defined by well-founded recursion unfold as written. *)
Lemma _decode_eqn p :
  _decode p =
  match on_tok Tokenizer.__next__ p with
  | (Raise e, p1) => (Raise e, p1)
  | (Ok None, p1) => (Ok tt, p1)
  | (Ok (Some midi_bytes), p1) =>
      match (decode midi_bytes ≫= append) p1 with
      | (Raise e, p2) => (Raise e, p2)
      | (Ok _, p2) => _decode p2
      end
  end.
Proof.
  funelim (_decode p); rewrite E; try rewrite E2; reflexivity.
Qed.

Lemma __iter___eqn acc p :
  __iter__ acc p =
  match __next__ p with
  | (Raise e, p1) => (Raise e, p1)
  | (Ok None, p1) => (Ok acc, p1)
  | (Ok (Some msg), p1) => __iter__ (acc ++ [msg]) p1
  end.
Proof.
  funelim (__iter__ acc p); rewrite E; reflexivity.
Qed.

Lemma pop_all_eqn acc p :
  pop_all acc p =
  match get_message p with
  | (Raise e, p1) => (Raise e, p1)
  | (Ok None, p1) => (Ok acc, p1)
  | (Ok (Some msg), p1) => pop_all (acc ++ [msg]) p1
  end.
Proof.
  funelim (pop_all acc p); rewrite E; reflexivity.
Qed.

(** [_decode] is [drain] on the ready list and the queue. *)
Lemma _decode_drain msgs f toks :
  _decode {| messages := msgs;
             _tok := {| Tokenizer.state := f; Tokenizer.ready := toks |} |}
  = let '(o, toks', msgs') := drain toks msgs in
    (o, {| messages := msgs';
           _tok := {| Tokenizer.state := f; Tokenizer.ready := toks' |} |}).
Proof.
  revert msgs. induction toks as [|tok rest IH]; intros msgs.
  - rewrite _decode_eqn. reflexivity.
  - rewrite _decode_eqn. cbn.
    unfold decode. destruct (from_bytes tok) as [msg|]; cbn.
    + apply IH.
    + reflexivity.
Qed.

Lemma drain_decoded toks msgs new :
  Forall2 (fun tok msg => from_bytes tok = Some msg) toks new ->
  drain toks msgs = (Ok tt, [], msgs ++ new).
Proof.
  intros HF. revert msgs.
  induction HF as [|tok msg toks new Hd _ IH]; intros msgs; cbn.
  - by rewrite app_nil_r.
  - rewrite Hd, IH, <- app_assoc. reflexivity.
Qed.

Lemma drain_app a b msgs :
  drain (a ++ b) msgs =
  match drain a msgs with
  | (Ok _, _, msgs') => drain b msgs'
  | (Raise e, toks, msgs') => (Raise e, toks ++ b, msgs')
  end.
Proof.
  revert msgs. induction a as [|tok a IH]; intros msgs; cbn; [done|].
  destruct (from_bytes tok); [apply IH | done].
Qed.

Lemma drain_ok_left toks msgs u toks' msgs' :
  drain toks msgs = (Ok u, toks', msgs') -> toks' = [].
Proof.
  revert msgs. induction toks as [|tok toks IH]; intros msgs; cbn.
  - congruence.
  - destruct (from_bytes tok); [apply IH | congruence].
Qed.

(** Either way of feeding is a call on the tokenizer followed by
    [_decode]. *)
Lemma fed_then_decoded {A} (op : M Tokenizer.t A) p tk a new :
  op (_tok p) = (Ok a, tk) ->
  Forall2 (fun tok msg => from_bytes tok = Some msg) (Tokenizer.ready tk) new ->
  (on_tok op ≫= fun _ => _decode) p
  = (Ok tt, {| messages := messages p ++ new;
               _tok := {| Tokenizer.state := Tokenizer.state tk;
                          Tokenizer.ready := [] |} |}).
Proof.
  intros Hop HF. unfold mbind, M_bind, on_tok. rewrite Hop.
  destruct tk as [f toks]. rewrite _decode_drain. cbn in *.
  by rewrite (drain_decoded _ _ _ HF).
Qed.

(** C1.  When [feed(data)] (resp. [feed_byte(byte)]) of the owned
    tokenizer succeeds and leaves it in state [tk], and the decoder maps
    the ready tokens of [tk], one by one and in order, to the messages
    [new], then [Parser.feed] (resp. [Parser.feed_byte]) succeeds, leaves
    no token ready in the tokenizer, and appends exactly [new] to the
    queue, in that order. *)
Theorem feed_decodes_ready_tokens_in_order p tk new :
  Forall2 (fun tok msg => from_bytes tok = Some msg) (Tokenizer.ready tk) new ->
  (forall data,
     Tokenizer.feed data (_tok p) = (Ok tt, tk) ->
     feed data p
     = (Ok tt, {| messages := messages p ++ new;
                  _tok := {| Tokenizer.state := Tokenizer.state tk;
                             Tokenizer.ready := [] |} |}))
  /\ (forall byte,
     Tokenizer.feed_byte byte (_tok p) = (Ok tt, tk) ->
     feed_byte byte p
     = (Ok tt, {| messages := messages p ++ new;
                  _tok := {| Tokenizer.state := Tokenizer.state tk;
                             Tokenizer.ready := [] |} |})).
Proof.
  intros HF. split; intros x Hx.
  - exact (fed_then_decoded (Tokenizer.feed x) p tk tt new Hx HF).
  - exact (fed_then_decoded (Tokenizer.feed_byte x) p tk tt new Hx HF).
Qed.


(** *** The tokenizer: feeding does not look at the ready list *)

Lemma tok_feed_byte_ready f r byte :
  Tokenizer.feed_byte byte {| Tokenizer.state := f; Tokenizer.ready := r |}
  = let '(o, tk) :=
      Tokenizer.feed_byte byte
        {| Tokenizer.state := f; Tokenizer.ready := [] |} in
    (o, {| Tokenizer.state := Tokenizer.state tk;
           Tokenizer.ready := r ++ Tokenizer.ready tk |}).
Proof.
  unfold Tokenizer.feed_byte; cbn.
  destruct (Tokenizer.is_byte byte); cbn.
  - destruct (Tokenizer.frame_byte f byte) as [f' o]; reflexivity.
  - by rewrite app_nil_r.
Qed.

Lemma tok_feed_ready data f r :
  Tokenizer.feed data {| Tokenizer.state := f; Tokenizer.ready := r |}
  = let '(o, tk) :=
      Tokenizer.feed data {| Tokenizer.state := f; Tokenizer.ready := [] |} in
    (o, {| Tokenizer.state := Tokenizer.state tk;
           Tokenizer.ready := r ++ Tokenizer.ready tk |}).
Proof.
  revert f r. induction data as [|byte rest IH]; intros f r; cbn.
  - by rewrite app_nil_r.
  - unfold mbind, M_bind.
    rewrite (tok_feed_byte_ready f r).
    destruct (Tokenizer.feed_byte byte _) as [[[]|e] [f1 e1]]; cbn.
    + rewrite (IH f1 (r ++ e1)), (IH f1 e1).
      destruct (Tokenizer.feed rest _) as [o [f2 e2]]; cbn.
      by rewrite app_assoc.
    + reflexivity.
Qed.

Lemma tok_feed_byte_valid byte tk :
  0 <= byte <= 255 ->
  exists tk', Tokenizer.feed_byte byte tk = (Ok tt, tk').
Proof.
  intros Hb. unfold Tokenizer.feed_byte, Tokenizer.is_byte.
  replace ((0 <=? byte) && (byte <=? 255)) with true
    by (symmetry; apply andb_true_iff; split; apply Z.leb_le; lia).
  destruct (Tokenizer.frame_byte _ _); eauto.
Qed.

Lemma tok_feed_valid data tk :
  Forall (fun b => 0 <= b <= 255) data ->
  exists tk', Tokenizer.feed data tk = (Ok tt, tk').
Proof.
  intros HF. revert tk. induction HF as [|byte rest Hb _ IH]; intros tk; cbn.
  - eauto.
  - unfold mbind, M_bind.
    destruct (tok_feed_byte_valid byte tk Hb) as [tk1 ->]. apply IH.
Qed.

(** *** Feeding byte by byte *)

Lemma feed_byte_is_feed_singleton byte p :
  feed_byte byte p = feed [byte] p.
Proof.
  unfold feed, feed_byte, mbind, M_bind, on_tok; cbn.
  unfold mbind, M_bind.
  destruct (Tokenizer.feed_byte byte (_tok p)) as [[[]|e] tk]; reflexivity.
Qed.

Lemma feed_byte_ok_drained byte p p1 :
  feed_byte byte p = (Ok tt, p1) -> Tokenizer.ready (_tok p1) = [].
Proof.
  unfold feed_byte, mbind, M_bind, on_tok.
  destruct (Tokenizer.feed_byte byte (_tok p)) as [[[]|e] [f1 r1]]; [|done].
  rewrite _decode_drain.
  destruct (drain r1 (messages p)) as [[o toks] msgs] eqn:Hd.
  intros [= -> <-]; cbn. by apply drain_ok_left in Hd.
Qed.

Lemma feed_cons byte rest p :
  Forall (fun b => 0 <= b <= 255) rest ->
  match feed_byte byte p with
  | (Ok _, p1) => feed (byte :: rest) p = feed rest p1
  | (Raise e, p1) =>
      exists tk, feed (byte :: rest) p
                 = (Raise e, {| messages := messages p1; _tok := tk |})
  end.
Proof.
  intros Hrest. destruct p as [msgs [f r]].
  unfold feed, feed_byte, on_tok; cbn. unfold mbind, M_bind; cbn.
  destruct (Tokenizer.feed_byte byte _) as [[[]|e] [f1 r1]] eqn:Hb; cbn.
  - rewrite _decode_drain.
    destruct (drain r1 msgs) as [[o toks] msgs1] eqn:Hd.
    destruct (tok_feed_valid rest {| Tokenizer.state := f1;
                                     Tokenizer.ready := [] |} Hrest)
      as [[f2 e2] Hfeed].
    rewrite (tok_feed_ready rest f1 r1), Hfeed; cbn.
    rewrite _decode_drain, drain_app, Hd.
    destruct o as [[]|e].
    + apply drain_ok_left in Hd as ->.
      rewrite Hfeed, _decode_drain. reflexivity.
    + eauto.
  - eauto.
Qed.

Lemma feed_nil_drained p :
  Tokenizer.ready (_tok p) = [] -> feed [] p = (Ok tt, p).
Proof.
  destruct p as [msgs [f r]]; cbn. intros ->.
  unfold feed, mbind, M_bind, on_tok; cbn. by rewrite _decode_drain.
Qed.

(** C3.  For bytes in 0..255, on a parser that holds no undecoded token
    when no byte is fed, feeding the bytes one at a time with
    [feed_byte] and feeding them in one [feed] call end with the same
    outcome and the same queue of messages, and in the same parser state
    when no exception is raised; [feed_byte(b)] is [feed([b])]. *)
Theorem feed_byte_by_byte_is_feed data p :
  Forall (fun b => 0 <= b <= 255) data ->
  (data = [] -> Tokenizer.ready (_tok p) = []) ->
  (feed_each data p).1 = (feed data p).1
  /\ messages (feed_each data p).2 = messages (feed data p).2
  /\ ((feed data p).1 = Ok tt -> feed_each data p = feed data p)
  /\ (forall byte, feed_byte byte p = feed [byte] p).
Proof.
  intros HF Hnil.
  cut ((feed_each data p).1 = (feed data p).1
       /\ messages (feed_each data p).2 = messages (feed data p).2
       /\ ((feed data p).1 = Ok tt -> feed_each data p = feed data p)).
  { intros (? & ? & ?). repeat split; auto using feed_byte_is_feed_singleton. }
  revert p Hnil. induction HF as [|byte rest Hb Hrest IH]; intros p Hnil.
  - rewrite (feed_nil_drained p) by auto. done.
  - pose proof (feed_cons byte rest p Hrest) as Hc.
    cbn [feed_each]. unfold mbind, M_bind.
    destruct (feed_byte byte p) as [[[]|e] p1] eqn:Hfb.
    + rewrite Hc. apply IH. intros _. by eapply feed_byte_ok_drained.
    + destruct Hc as [tk ->]. cbn. done.
Qed.

(** *** The queue *)

(** C4.  [get_message()] never raises; it returns the oldest message of
    the queue, if there is one, and leaves the rest of the queue and the
    tokenizer as they were: on a non-empty queue it removes the first
    message and returns it, on an empty queue it returns [None] and the
    parser is unchanged. *)
Theorem get_message_pops_front_or_none p :
  get_message p
  = (Ok (head (messages p)),
     {| messages := tail (messages p); _tok := _tok p |})
  /\ (forall msg msgs tk,
        get_message {| messages := msg :: msgs; _tok := tk |}
        = (Ok (Some msg), {| messages := msgs; _tok := tk |}))
  /\ (forall tk,
        get_message {| messages := []; _tok := tk |}
        = (Ok None, {| messages := []; _tok := tk |})).
Proof.
  split; [|split; reflexivity].
  destruct p as [msgs tk]. destruct msgs as [|msg rest]; reflexivity.
Qed.

Lemma __next___eq msgs tk :
  __next__ {| messages := msgs; _tok := tk |}
  = match msgs with
    | [] => (Ok None, {| messages := []; _tok := tk |})
    | msg :: rest => (Ok (Some msg), {| messages := rest; _tok := tk |})
    end.
Proof. by destruct msgs. Qed.

Lemma get_message_eq msgs tk :
  get_message {| messages := msgs; _tok := tk |}
  = match msgs with
    | [] => (Ok None, {| messages := []; _tok := tk |})
    | msg :: rest => (Ok (Some msg), {| messages := rest; _tok := tk |})
    end.
Proof. by destruct msgs. Qed.

Lemma __iter___collects acc msgs tk :
  __iter__ acc {| messages := msgs; _tok := tk |}
  = (Ok (acc ++ msgs), {| messages := []; _tok := tk |}).
Proof.
  revert acc. induction msgs as [|msg msgs IH]; intros acc.
  - rewrite __iter___eqn, __next___eq. by rewrite app_nil_r.
  - rewrite __iter___eqn, __next___eq. rewrite IH, <- app_assoc. reflexivity.
Qed.

Lemma pop_all_collects acc msgs tk :
  pop_all acc {| messages := msgs; _tok := tk |}
  = (Ok (acc ++ msgs), {| messages := []; _tok := tk |}).
Proof.
  revert acc. induction msgs as [|msg msgs IH]; intros acc.
  - rewrite pop_all_eqn, get_message_eq. by rewrite app_nil_r.
  - rewrite pop_all_eqn, get_message_eq. rewrite IH, <- app_assoc. reflexivity.
Qed.

(** C5.  Iterating a parser yields the queued messages oldest first,
    each once, and empties the queue; popping with [get_message] until
    it answers [None] does the same.  Afterwards [pending()] is 0 and one
    more [get_message()] answers [None] without raising.  [pending()]
    returns the length of the queue and leaves the parser unchanged. *)
Theorem iterating_is_fifo_and_drains p :
  __iter__ [] p = (Ok (messages p), {| messages := []; _tok := _tok p |})
  /\ pop_all [] p = __iter__ [] p
  /\ pending (__iter__ [] p).2 = (Ok 0%nat, (__iter__ [] p).2)
  /\ get_message (__iter__ [] p).2 = (Ok None, (__iter__ [] p).2)
  /\ pending p = (Ok (length (messages p)), p).
Proof.
  destruct p as [msgs tk].
  rewrite pop_all_collects, !__iter___collects. cbn. done.
Qed.

(** *** The entry points *)

Lemma __init___feeds data :
  __init__ data = feed data (__init__ []).2.
Proof.
  destruct data as [|byte rest]; [|reflexivity].
  cbn. by rewrite feed_nil_drained.
Qed.

Lemma __init___decoded data tk msgs :
  Tokenizer.feed data Tokenizer.new = (Ok tt, tk) ->
  Forall2 (fun tok msg => from_bytes tok = Some msg) (Tokenizer.ready tk) msgs ->
  __init__ data
  = (Ok tt, {| messages := msgs;
               _tok := {| Tokenizer.state := Tokenizer.state tk;
                          Tokenizer.ready := [] |} |}).
Proof.
  intros Hfeed HF. rewrite __init___feeds.
  exact (fed_then_decoded (Tokenizer.feed data) (__init__ []).2 tk tt msgs
           Hfeed HF).
Qed.

Lemma parse_all_run_decoded data tk msgs :
  Tokenizer.feed data Tokenizer.new = (Ok tt, tk) ->
  Forall2 (fun tok msg => from_bytes tok = Some msg) (Tokenizer.ready tk) msgs ->
  parse_all_run data
  = (Ok msgs, {| messages := [];
                 _tok := {| Tokenizer.state := Tokenizer.state tk;
                            Tokenizer.ready := [] |} |}).
Proof.
  intros Hfeed HF. unfold parse_all_run.
  rewrite (__init___decoded data tk msgs Hfeed HF).
  by rewrite __iter___collects.
Qed.

Lemma parse_run_decoded data tk msgs :
  Tokenizer.feed data Tokenizer.new = (Ok tt, tk) ->
  Forall2 (fun tok msg => from_bytes tok = Some msg) (Tokenizer.ready tk) msgs ->
  parse_run data
  = (Ok (head msgs),
     {| messages := tail msgs;
        _tok := {| Tokenizer.state := Tokenizer.state tk;
                   Tokenizer.ready := [] |} |}).
Proof.
  intros Hfeed HF. unfold parse_run.
  rewrite (__init___decoded data tk msgs Hfeed HF).
  by destruct msgs.
Qed.

(** C6.  [parse_all(data)] is a new parser fed with [data] and then
    iterated.  When the tokenizer accepts [data] and the decoder maps the
    tokens it frames, in order, to [msgs], [parse_all] returns exactly
    [msgs] and the queue of its parser is empty; with no token framed the
    result is the empty list. *)
Theorem parse_all_returns_every_message data tk msgs :
  Tokenizer.feed data Tokenizer.new = (Ok tt, tk) ->
  Forall2 (fun tok msg => from_bytes tok = Some msg) (Tokenizer.ready tk) msgs ->
  parse_all data = Ok msgs
  /\ parse_all_run data
     = (feed data ≫= fun _ => __iter__ []) (__init__ []).2
  /\ messages (parse_all_run data).2 = []
  /\ (Tokenizer.ready tk = [] -> parse_all data = Ok []).
Proof.
  intros Hfeed HF.
  pose proof (parse_all_run_decoded data tk msgs Hfeed HF) as Hrun.
  split_and!.
  - unfold parse_all. by rewrite Hrun.
  - unfold parse_all_run at 1. rewrite __init___feeds.
    unfold mbind, M_bind.
    by destruct (feed data _) as [[[]|e] p1].
  - by rewrite Hrun.
  - intros Hnil. rewrite Hnil in HF. apply Forall2_nil_inv_l in HF as ->.
    unfold parse_all. by rewrite Hrun.
Qed.

(** C7.  [parse(data)] is a new parser fed with [data] and asked for one
    message.  When the tokenizer accepts [data] and the decoder maps the
    tokens it frames, in order, to [msgs], [parse] returns the first of
    [msgs], or [None] when there is none; the other messages stay in the
    queue of the parser, which is dropped. *)
Theorem parse_returns_first_message data tk msgs :
  Tokenizer.feed data Tokenizer.new = (Ok tt, tk) ->
  Forall2 (fun tok msg => from_bytes tok = Some msg) (Tokenizer.ready tk) msgs ->
  parse data = Ok (head msgs)
  /\ parse_run data = (feed data ≫= fun _ => get_message) (__init__ []).2
  /\ messages (parse_run data).2 = tail msgs
  /\ (Tokenizer.ready tk = [] -> parse data = Ok None).
Proof.
  intros Hfeed HF.
  pose proof (parse_run_decoded data tk msgs Hfeed HF) as Hrun.
  split_and!.
  - unfold parse. by rewrite Hrun.
  - unfold parse_run at 1. rewrite __init___feeds.
    unfold mbind, M_bind.
    by destruct (feed data _) as [[[]|e] p1].
  - by rewrite Hrun.
  - intros Hnil. rewrite Hnil in HF. apply Forall2_nil_inv_l in HF as ->.
    unfold parse. by rewrite Hrun.
Qed.

(** C2.  With note-on (0x90) taking two data bytes, the bytes
    [0x90, 0xF8, 60, 127] fed to a new parser give two messages: the
    decoding of the realtime token [0xF8] first, then the decoding of
    the note-on token [0x90, 60, 127].  The tokenizer is left with 0x90
    as running status and nothing open. *)
Theorem realtime_byte_inside_note_on m_clock m_note :
  data_len 0x90 = Some 2%nat ->
  from_bytes [0xF8] = Some m_clock ->
  from_bytes [0x90; 60; 127] = Some m_note ->
  feed [0x90; 0xF8; 60; 127] (__init__ []).2
  = (Ok tt,
     {| messages := [m_clock; m_note];
        _tok := {| Tokenizer.state :=
                     {| Tokenizer.running_status := Some 0x90;
                        Tokenizer.message := None;
                        Tokenizer.sysex := None |};
                   Tokenizer.ready := [] |} |})
  /\ parse_all [0x90; 0xF8; 60; 127] = Ok [m_clock; m_note].
Proof.
  intros Hlen Hclock Hnote.
  assert (Tokenizer.feed [0x90; 0xF8; 60; 127] Tokenizer.new
          = (Ok tt,
             {| Tokenizer.state :=
                  {| Tokenizer.running_status := Some 0x90;
                     Tokenizer.message := None;
                     Tokenizer.sysex := None |};
                Tokenizer.ready := [[0xF8]; [0x90; 60; 127]] |})) as Hfeed.
  { cbn. unfold mbind, M_bind, Tokenizer.feed_byte, Tokenizer.frame_byte,
      Tokenizer.expected_len.
    repeat first [rewrite Hlen | progress cbn]. reflexivity. }
  assert (Forall2 (fun tok msg => from_bytes tok = Some msg)
            [[0xF8]; [0x90; 60; 127]] [m_clock; m_note]) as HF
    by (repeat constructor; assumption).
  split.
  - exact (fed_then_decoded (Tokenizer.feed _) (__init__ []).2 _ tt _
             Hfeed HF).
  - unfold parse_all. by rewrite (parse_all_run_decoded _ _ _ Hfeed HF).
Qed.

End ParserFacts.

(** * Properties of [notes2pianoroll] *)

Section StoreFacts.
Implicit Types (h : heap) (xs ys : list loc).

(** *** Sorting keeps the elements *)

Lemma Forall_insert_by {A} (P : A -> Prop) key x (l : list A) :
  P x -> Forall P l -> Forall P (insert_by key x l).
Proof.
  intros Hx Hl. induction Hl as [|y l Hy Hl IH]; cbn.
  - by constructor.
  - destruct (key x <=? key y); repeat constructor; auto.
Qed.

Lemma Forall_sorted {A} (P : A -> Prop) key (l : list A) :
  Forall P l -> Forall P (sorted key l).
Proof.
  induction 1 as [|x l Hx Hl IH]; cbn; [constructor|].
  by apply Forall_insert_by.
Qed.

(** *** Writes through references that the original store does not have *)

Lemma set_start_frame (h0 : heap) h r v :
  h0 !! r = None -> h0 ⊆ h -> h0 ⊆ set_start r v h.
Proof. intros. by apply insert_subseteq_r. Qed.

Lemma set_end_frame (h0 : heap) h r v :
  h0 !! r = None -> h0 ⊆ h -> h0 ⊆ set_end r v h.
Proof. intros. by apply insert_subseteq_r. Qed.

Lemma deepcopy_notes_frame (h0 : heap) xs : forall h memo,
  h0 ⊆ h ->
  (forall x y, memo !! x = Some y -> h0 !! y = None) ->
  h0 ⊆ (deepcopy_notes h memo xs).1
  /\ Forall (fun y => h0 !! y = None) (deepcopy_notes h memo xs).2.
Proof.
  induction xs as [|x rest IH]; intros h memo Hsub Hmemo; cbn.
  - split; [done | constructor].
  - destruct (memo !! x) as [y|] eqn:Hx.
    + destruct (IH h memo Hsub Hmemo) as [IH1 IH2].
      destruct (deepcopy_notes h memo rest) as [h' ys]; cbn in *.
      split; [done|]. constructor; eauto.
    + set (y := fresh (dom h)).
      assert (h0 !! y = None) as Hy.
      { apply (not_elem_of_dom (D := gset loc)).
        intros Hin. apply (is_fresh (dom h)).
        by apply (subseteq_dom h0 h Hsub). }
      destruct (IH (<[y := h !!! x]> h) (<[x := y]> memo)) as [IH1 IH2].
      * by apply insert_subseteq_r.
      * intros x' y' Hl. destruct (decide (x = x')) as [->|Hne].
        -- rewrite lookup_insert_eq in Hl. congruence.
        -- rewrite lookup_insert_ne in Hl by done. eauto.
      * destruct (deepcopy_notes _ _ rest) as [h' ys]; cbn in *.
        split; [done|]. by constructor.
Qed.

Lemma resample_loop_frame (h0 : heap) f xs : forall h,
  Forall (fun y => h0 !! y = None) xs ->
  h0 ⊆ h -> h0 ⊆ foldl (resample_note f) h xs.
Proof.
  induction xs as [|x rest IH]; intros h HF Hsub; cbn; [done|].
  inversion_clear HF. apply IH; [done|].
  unfold resample_note. by apply set_end_frame, set_start_frame.
Qed.

Lemma fill_note_frame (h0 : heap) a h c x :
  h0 !! x = None -> h0 ⊆ h -> h0 ⊆ (fill_note a (h, c) x).1.
Proof.
  intros Hx Hsub. unfold fill_note.
  destruct (velocity (h !!! x) =? 0); [done|].
  destruct (keep_note a && (end_ (h !!! x) - start (h !!! x) =? 0)); cbn;
    [by apply set_end_frame | done].
Qed.

Lemma fill_loop_frame (h0 : heap) a xs : forall st,
  Forall (fun y => h0 !! y = None) xs ->
  h0 ⊆ st.1 -> h0 ⊆ (foldl (fill_note a) st xs).1.
Proof.
  induction xs as [|x rest IH]; intros [h c] HF Hsub; cbn; [done|].
  inversion_clear HF. apply IH; [done|]. by apply fill_note_frame.
Qed.

Lemma prepare_frame a (h0 : heap) xs :
  h0 ⊆ (prepare a h0 xs).1.1
  /\ Forall (fun y => h0 !! y = None) (prepare a h0 xs).1.2.
Proof.
  unfold prepare, deepcopy.
  destruct (deepcopy_notes_frame h0 xs h0 ∅) as [H1 H2]; [done| |].
  { intros x y Hl. by rewrite lookup_empty in Hl. }
  destruct (deepcopy_notes h0 ∅ xs) as [h ys]; cbn in *.
  pose proof (Forall_sorted _ (fun x => end_ (h !!! x)) ys H2) as Hs.
  destruct (resample a) as [f|]; cbn; [|done].
  split; [|done]. by apply resample_loop_frame.
Qed.

(** C8.  [notes2pianoroll] leaves every object of the caller's store as
    it was: a note that the store holds at address [l] before the call
    is there, with the same velocity, pitch, start and end, after the
    call, whatever the arguments.  The notes of [note_stream_ori] are
    such objects. *)
Theorem notes2pianoroll_keeps_input_notes a h note_stream_ori l n :
  h !! l = Some n ->
  (notes2pianoroll a h note_stream_ori).2 !! l = Some n.
Proof.
  intros Hl. unfold notes2pianoroll.
  destruct (prepare_frame a h note_stream_ori) as [H1 H2].
  destruct (prepare a h note_stream_ori) as [[h1 ys] mt]; cbn in *.
  pose proof (fill_loop_frame h a ys (h1, empty_coo) H2 H1) as H3.
  destruct (foldl (fill_note a) (h1, empty_coo) ys) as [h2 c]; cbn in *.
  by apply (lookup_weaken h h2).
Qed.

(** *** Notes without velocity *)

Lemma velocity_set_end h r v x :
  velocity (set_end r v h !!! x) = velocity (h !!! x).
Proof.
  unfold set_end. destruct (decide (r = x)) as [->|Hne].
  - by rewrite lookup_total_insert_eq.
  - by rewrite lookup_total_insert_ne.
Qed.

Lemma fill_note_velocity a h c note x :
  velocity ((fill_note a (h, c) note).1 !!! x) = velocity (h !!! x).
Proof.
  unfold fill_note.
  destruct (velocity (h !!! note) =? 0); [done|].
  destruct (keep_note a && (end_ (h !!! note) - start (h !!! note) =? 0));
    cbn; [apply velocity_set_end | done].
Qed.

Lemma fill_note_zero_velocity a st note :
  velocity (st.1 !!! note) = 0 -> fill_note a st note = st.
Proof.
  destruct st as [h c]; cbn. intros Hv. unfold fill_note. by rewrite Hv.
Qed.

Lemma fill_loop_skips a (keep : loc -> Prop) `{!forall x, Decision (keep x)}
    xs : forall st,
  (forall x, keep x <-> velocity (st.1 !!! x) <> 0) ->
  foldl (fill_note a) st xs = foldl (fill_note a) st (filter keep xs).
Proof.
  induction xs as [|x rest IH]; intros [h c] Hkeep; [done|].
  assert (forall y, keep y <->
                    velocity ((fill_note a (h, c) x).1 !!! y) <> 0) as Hkeep'.
  { intros y. rewrite fill_note_velocity. apply Hkeep. }
  cbn [foldl]. rewrite filter_cons.
  destruct (decide (keep x)) as [Hk|Hk]; cbn [foldl].
  - by apply IH.
  - assert (velocity (h !!! x) = 0) as Hv.
    { destruct (decide (velocity (h !!! x) = 0)); [done|].
      exfalso. apply Hk, Hkeep. done. }
    rewrite (fill_note_zero_velocity a (h, c) x Hv). by apply IH.
Qed.

(** C9.  A note whose velocity is 0 makes the loop body do nothing: the
    three coordinate lists and the store are what they were.  So the
    pianoroll that [notes2pianoroll] returns is the one built from the
    notes of the working stream (copied, sorted, resampled) whose
    velocity is not 0, for every stream and every argument. *)
Theorem zero_velocity_notes_add_no_entries a h note_stream_ori :
  (forall st note,
     velocity (st.1 !!! note) = 0 -> fill_note a st note = st)
  /\ notes2pianoroll a h note_stream_ori
     = let '(h1, note_stream, max_tick) := prepare a h note_stream_ori in
       let '(h2, c) :=
         foldl (fill_note a) (h1, empty_coo)
           (filter (fun x => velocity (h1 !!! x) <> 0) note_stream) in
       ({| entries := c; shape := (max_tick, PITCH_RANGE);
           sparse := to_sparse a |}, h2).
Proof.
  split; [apply fill_note_zero_velocity|].
  unfold notes2pianoroll.
  destruct (prepare a h note_stream_ori) as [[h1 ys] mt].
  by rewrite <- (fill_loop_skips a (fun x => velocity (h1 !!! x) <> 0)).
Qed.

End StoreFacts.

(** * Properties of [pianoroll2notes] *)

Section PianorollFacts.

(** *** The velocity is clamped *)

Lemma Qlt_bool_true x y : Qlt_bool x y = true -> (x < y)%Q.
Proof.
  unfold Qlt_bool. intros Hb. apply negb_true_iff in Hb.
  apply Qnot_le_lt. intros Hle. apply Qle_bool_iff in Hle. congruence.
Qed.

Lemma Qlt_bool_false x y : Qlt_bool x y = false -> (y <= x)%Q.
Proof.
  unfold Qlt_bool. intros Hb. apply negb_false_iff in Hb.
  by apply Qle_bool_iff.
Qed.

Lemma clamp_range v : (0 <= clamp v)%Q /\ (clamp v <= 127)%Q.
Proof.
  unfold clamp.
  destruct (Qlt_bool v 127) eqn:Hhi.
  - apply Qlt_bool_true in Hhi.
    destruct (Qlt_bool 0 v) eqn:Hlo.
    + apply Qlt_bool_true in Hlo. split; by apply Qlt_le_weak.
    + split; [apply Qle_refl | done].
  - destruct (Qlt_bool 0 127) eqn:Hlo; split; try apply Qle_refl; done.
Qed.

Lemma int_range x : (0 <= x)%Q -> (x <= 127)%Q -> 0 <= int x <= 127.
Proof.
  destruct x as [n d]. unfold Qle, int; cbn. intros Hlo Hhi.
  split.
  - apply Z.quot_pos; lia.
  - apply Z.quot_le_upper_bound; lia.
Qed.

Lemma int_clamp_range v : 0 <= int (clamp v) <= 127.
Proof. destruct (clamp_range v). by apply int_range. Qed.

(** *** Insertion sort sorts *)

Lemma insert_by_sorted {A} (key : A -> Z) x (l : list A) :
  StronglySorted (fun a b => key a <= key b) l ->
  StronglySorted (fun a b => key a <= key b) (insert_by key x l).
Proof.
  induction 1 as [|y l Hl IH Hy]; cbn.
  - repeat constructor.
  - destruct (key x <=? key y) eqn:Hc.
    + apply Z.leb_le in Hc. constructor; [by constructor|].
      constructor; [done|].
      eapply Forall_impl; [exact Hy|]. cbn. intros; lia.
    + apply Z.leb_gt in Hc. constructor; [done|].
      apply Forall_insert_by; [lia | done].
Qed.

Lemma sorted_sorted {A} (key : A -> Z) (l : list A) :
  StronglySorted (fun a b => key a <= key b) (sorted key l).
Proof.
  induction l as [|x l IH]; cbn; [constructor | by apply insert_by_sorted].
Qed.

(** *** As many note-offs as note-ons *)

Lemma nonzero_T_elem m nr nc j i :
  (j, i) ∈ nonzero_T m nr nc ->
  (j < nc)%nat /\ (i < nr)%nat /\ m i j = true.
Proof.
  unfold nonzero_T. rewrite list_elem_of_In, in_flat_map.
  intros (j' & Hj & Hin). apply in_flat_map in Hin as (i' & Hi & Hin).
  apply in_seq in Hj, Hi.
  destruct (m i' j') eqn:Hm; [|by destruct Hin].
  destruct Hin as [[= -> ->]|[]]. repeat split; [lia | lia | done].
Qed.

Lemma length_flat_map_ext {A B C} (f : A -> list B) (g : A -> list C) l :
  (forall x, length (f x) = length (g x)) ->
  length (flat_map f l) = length (flat_map g l).
Proof.
  intros Hfg. induction l as [|x l IH]; cbn; [done|].
  by rewrite !length_app, Hfg, IH.
Qed.

Lemma edges_balance (a : ndarray) j n :
  Z.of_nat (length (flat_map (fun i => if 0 <? diff a i j then [(j, i)] else [])
                      (seq 0 n)))
  - Z.of_nat (length (flat_map (fun i => if diff a i j <? 0 then [(j, i)] else [])
                        (seq 0 n)))
  = astype_int8 (padded a n j) - astype_int8 (padded a 0 j).
Proof.
  induction n as [|n IH]; [cbn; lia|].
  rewrite seq_S, !flat_map_app, !length_app; cbn [flat_map Nat.add].
  rewrite !app_nil_r. unfold diff at 2 4.
  revert IH. destruct (padded a (S n) j), (padded a n j); simpl; lia.
Qed.

Lemma padded_last (a : ndarray) j : padded a (S (nrows a)) j = false.
Proof. unfold padded. by rewrite Nat.ltb_irrefl. Qed.

Lemma note_offs_length (a : ndarray) :
  length (nonzero_T (fun i j => diff a i j <? 0) (S (nrows a)) (ncols a))
  = length (nonzero_T (fun i j => 0 <? diff a i j) (S (nrows a)) (ncols a)).
Proof.
  unfold nonzero_T. apply length_flat_map_ext. intros j.
  pose proof (edges_balance a j (S (nrows a))) as Hb.
  rewrite padded_last in Hb. cbn [padded astype_int8] in Hb. lia.
Qed.

Lemma note_on_row (a : ndarray) i j :
  (0 <? diff a i j) = true -> (i < nrows a)%nat.
Proof.
  unfold diff. cbn [padded].
  destruct (i <? nrows a)%nat eqn:Hi; [intros _; by apply Nat.ltb_lt|].
  destruct (padded a i j); cbn; intros Hd; apply Z.ltb_lt in Hd; lia.
Qed.

(** *** The loop *)

Lemma notes_loop_total (a : ndarray) scale ons offs pitches :
  forall idx notes,
  (forall k p, pitches !! k = Some p ->
     exists st ed, ons !! (idx + k)%nat = Some st
                   /\ offs !! (idx + k)%nat = Some ed
                   /\ (st < nrows a)%nat /\ (p < ncols a)%nat) ->
  exists new,
    notes_loop a scale ons offs idx pitches notes = Ok (notes ++ new)
    /\ Forall (fun n => 0 <= velocity n <= 127) new.
Proof.
  induction pitches as [|p rest IH]; intros idx notes Hok; cbn.
  - exists []. by rewrite app_nil_r.
  - destruct (Hok 0%nat p eq_refl) as (st & ed & Hst & Hed & Hr & Hc).
    rewrite Nat.add_0_r in Hst, Hed.
    apply Nat.ltb_lt in Hr, Hc.
    unfold index, getitem. rewrite Hst, Hed; cbn -[Nat.ltb].
    rewrite Hr, Hc; cbn.
    destruct (IH (S idx)
                (notes ++ [{| velocity := int (clamp (item a st p));
                              pitch := Z.of_nat p;
                              start := scale (Z.of_nat st);
                              end_ := scale (Z.of_nat ed) |}]))
      as (new & Hloop & Hnew).
    { intros k q Hk. destruct (Hok (S k) q Hk) as (st' & ed' & ? & ? & ?).
      exists st', ed'. by rewrite Nat.add_succ_comm. }
    eexists (_ :: new). rewrite Hloop, <- app_assoc. split; [done|].
    constructor; [apply int_clamp_range | done].
Qed.

(** C10.  [pianoroll2notes] returns, for every array and every
    resampling, a list of notes in which every velocity is an integer
    between 0 and 127 and which is in non-decreasing order of start
    time. *)
Theorem pianoroll2notes_velocity_clamped_and_sorted pianoroll scale :
  exists notes,
    pianoroll2notes pianoroll scale = Ok notes
    /\ Forall (fun n => 0 <= velocity n <= 127) notes
    /\ StronglySorted (fun x y => start x <= start y) notes.
Proof.
  unfold pianoroll2notes.
  set (ps := nonzero_T (fun i j => 0 <? diff pianoroll i j) _ _).
  set (offs := (nonzero_T (fun i j => diff pianoroll i j <? 0) _ _).*2).
  destruct (notes_loop_total pianoroll scale ps.*2 offs ps.*1 0%nat [])
    as (new & Hloop & Hnew).
  { intros k p Hk. cbn.
    apply list_lookup_fmap_Some in Hk as ([p' st] & -> & Hps); cbn.
    assert (k < length offs)%nat as Hlen.
    { unfold offs. rewrite length_fmap, note_offs_length.
      by eapply lookup_lt_Some. }
    apply lookup_lt_is_Some in Hlen as [ed Hed].
    exists st, ed. rewrite list_lookup_fmap, Hps. split_and!; try done.
    - apply list_elem_of_lookup_2, nonzero_T_elem in Hps as (_ & _ & Hd).
      by eapply note_on_row.
    - by apply list_elem_of_lookup_2, nonzero_T_elem in Hps as (? & _ & _). }
  rewrite Hloop; cbn. eexists. split; [done|]. split.
  - by apply Forall_sorted.
  - apply sorted_sorted.
Qed.

End PianorollFacts.

(** * The theorems at concrete inputs *)

Example parse_all_running_status :
  @parse_all raw_codec midi_status_table [0x90; 60; 127; 61; 127]
  = Ok [[0x90; 60; 127]; [0x90; 61; 127]].
Proof. reflexivity. Qed.

Example parse_all_sysex :
  @parse_all raw_codec midi_status_table [0xF0; 1; 2; 0xF8; 3; 0xF7]
  = Ok [[0xF8]; [0xF0; 1; 2; 3; 0xF7]].
Proof. reflexivity. Qed.

Example parse_all_orphan_data :
  @parse_all raw_codec midi_status_table [60; 127] = Ok [].
Proof. reflexivity. Qed.

Example parse_decode_error :
  @parse no_sysex_codec midi_status_table [0x90; 60; 127; 0xF0; 0xF7]
  = Raise DecodeError.
Proof. reflexivity. Qed.

Example parse_all_invalid_input :
  @parse_all raw_codec midi_status_table [0x90; 60; 300] = Raise InvalidInput.
Proof. reflexivity. Qed.

(** A note-on interrupted by a clock byte, fed at once; a clock byte fed
    alone. *)
Lemma feed_decodes_ready_tokens_in_order_witness :
  (@Tokenizer.feed midi_status_table [0x90; 0xF8; 60; 127] Tokenizer.new
   = (Ok tt, {| Tokenizer.state := note_on_running;
                Tokenizer.ready := [[0xF8]; [0x90; 60; 127]] |})
   /\ @Parser.feed raw_codec midi_status_table [0x90; 0xF8; 60; 127]
        new_raw_parser
      = (Ok tt, {| Parser.messages := raw [[0xF8]; [0x90; 60; 127]];
                   Parser._tok := {| Tokenizer.state := note_on_running;
                                     Tokenizer.ready := [] |} |}))
  /\ (@Tokenizer.feed_byte midi_status_table 0xF8 Tokenizer.new
      = (Ok tt, {| Tokenizer.state := Tokenizer.state Tokenizer.new;
                   Tokenizer.ready := [[0xF8]] |})
      /\ @Parser.feed_byte raw_codec midi_status_table 0xF8 new_raw_parser
         = (Ok tt, {| Parser.messages := raw [[0xF8]];
                      Parser._tok := Tokenizer.new |})).
Proof.
  split; split.
  - reflexivity.
  - apply (proj1 (@feed_decodes_ready_tokens_in_order
                    raw_codec midi_status_table new_raw_parser
                    {| Tokenizer.state := note_on_running;
                       Tokenizer.ready := [[0xF8]; [0x90; 60; 127]] |}
                    [[0xF8]; [0x90; 60; 127]]
                    ltac:(repeat constructor))).
    reflexivity.
  - reflexivity.
  - apply (proj2 (@feed_decodes_ready_tokens_in_order
                    raw_codec midi_status_table new_raw_parser
                    {| Tokenizer.state := Tokenizer.state Tokenizer.new;
                       Tokenizer.ready := [[0xF8]] |}
                    [[0xF8]]
                    ltac:(repeat constructor))).
    reflexivity.
Defined.

(** The MIDI 1.0 table and the decoder that keeps the bytes. *)
Lemma realtime_byte_inside_note_on_witness :
  @data_len midi_status_table 0x90 = Some 2%nat
  /\ @from_bytes raw_codec [0xF8] = Some [0xF8]
  /\ @from_bytes raw_codec [0x90; 60; 127] = Some [0x90; 60; 127]
  /\ @Parser.feed raw_codec midi_status_table [0x90; 0xF8; 60; 127]
       new_raw_parser
     = (Ok tt, {| Parser.messages := raw [[0xF8]; [0x90; 60; 127]];
                  Parser._tok := {| Tokenizer.state := note_on_running;
                                    Tokenizer.ready := [] |} |})
  /\ @parse_all raw_codec midi_status_table [0x90; 0xF8; 60; 127]
     = Ok [[0xF8]; [0x90; 60; 127]].
Proof.
  split; [reflexivity|]. split; [reflexivity|]. split; [reflexivity|].
  apply (@realtime_byte_inside_note_on raw_codec midi_status_table
           [0xF8] [0x90; 60; 127]); reflexivity.
Defined.

(** Four bytes streamed into a new parser. *)
Lemma feed_byte_by_byte_is_feed_witness :
  Forall (fun b => 0 <= b <= 255) [0x90; 0xF8; 60; 127]
  /\ ([0x90; 0xF8; 60; 127] = [] -> Tokenizer.ready (Parser._tok new_raw_parser) = [])
  /\ @feed_each raw_codec midi_status_table [0x90; 0xF8; 60; 127] new_raw_parser
     = @Parser.feed raw_codec midi_status_table [0x90; 0xF8; 60; 127]
         new_raw_parser.
Proof.
  assert (Forall (fun b => 0 <= b <= 255) [0x90; 0xF8; 60; 127]) as HF
    by (repeat constructor; lia).
  split_and!; [exact HF | done |].
  apply (@feed_byte_by_byte_is_feed raw_codec midi_status_table
           [0x90; 0xF8; 60; 127] new_raw_parser HF); [done | reflexivity].
Defined.

(** Two note-ons under running status. *)
Lemma parse_all_returns_every_message_witness :
  @Tokenizer.feed midi_status_table [0x90; 60; 127; 61; 127] Tokenizer.new
  = (Ok tt, {| Tokenizer.state := note_on_running;
               Tokenizer.ready := [[0x90; 60; 127]; [0x90; 61; 127]] |})
  /\ @parse_all raw_codec midi_status_table [0x90; 60; 127; 61; 127]
     = Ok [[0x90; 60; 127]; [0x90; 61; 127]].
Proof.
  split; [reflexivity|].
  apply (@parse_all_returns_every_message raw_codec midi_status_table
           [0x90; 60; 127; 61; 127]
           {| Tokenizer.state := note_on_running;
              Tokenizer.ready := [[0x90; 60; 127]; [0x90; 61; 127]] |}
           [[0x90; 60; 127]; [0x90; 61; 127]]);
    [reflexivity | repeat constructor].
Defined.

(** The first of two note-ons. *)
Lemma parse_returns_first_message_witness :
  @Tokenizer.feed midi_status_table [0x90; 60; 127; 61; 127] Tokenizer.new
  = (Ok tt, {| Tokenizer.state := note_on_running;
               Tokenizer.ready := [[0x90; 60; 127]; [0x90; 61; 127]] |})
  /\ @parse raw_codec midi_status_table [0x90; 60; 127; 61; 127]
     = Ok (Some [0x90; 60; 127]).
Proof.
  split; [reflexivity|].
  apply (@parse_returns_first_message raw_codec midi_status_table
           [0x90; 60; 127; 61; 127]
           {| Tokenizer.state := note_on_running;
              Tokenizer.ready := [[0x90; 60; 127]; [0x90; 61; 127]] |}
           [[0x90; 60; 127]; [0x90; 61; 127]]);
    [reflexivity | repeat constructor].
Defined.

Example notes2pianoroll_three_notes :
  (notes2pianoroll default_args three_notes [0; 1; 2; 0]%nat).1
  = {| entries :=
         {| time_coo := [2; 0; 1; 2; 3; 0; 1; 2; 3];
            pitch_coo := [62; 60; 60; 60; 60; 60; 60; 60; 60];
            velocity_coo := [Vel 90; Vel 100; Vel 100; Vel 100; Vel 100;
                             Vel 100; Vel 100; Vel 100; Vel 100] |};
       shape := (4, 128); sparse := false |}.
Proof. vm_compute. reflexivity. Qed.

(** The note without duration, whose copy is resampled and
    lengthened. *)
Lemma notes2pianoroll_keeps_input_notes_witness :
  three_notes !! 2%nat
  = Some {| velocity := 90; pitch := 62; start := 2; end_ := 2 |}
  /\ (notes2pianoroll doubling_args three_notes [0; 1; 2; 0]%nat).2 !! 2%nat
     = Some {| velocity := 90; pitch := 62; start := 2; end_ := 2 |}.
Proof.
  split; [reflexivity|].
  apply (notes2pianoroll_keeps_input_notes doubling_args three_notes
           [0; 1; 2; 0]%nat 2%nat). reflexivity.
Defined.

(** The note without velocity. *)
Lemma zero_velocity_notes_add_no_entries_witness :
  velocity (three_notes !!! 1%nat) = 0
  /\ fill_note default_args (three_notes, empty_coo) 1%nat
     = (three_notes, empty_coo).
Proof.
  split; [reflexivity|].
  apply (proj1 (zero_velocity_notes_add_no_entries default_args three_notes [])
           (three_notes, empty_coo) 1%nat). reflexivity.
Defined.

Example pianoroll2notes_two_pitches :
  pianoroll2notes
    (array_of_rows 2 [[0; 5]; [3; 5]; [3; 0]; [0; 200]]%Q) (fun t => t)
  = Ok [{| velocity := 5; pitch := 1; start := 0; end_ := 2 |};
        {| velocity := 3; pitch := 0; start := 1; end_ := 3 |};
        {| velocity := 127; pitch := 1; start := 3; end_ := 4 |}].
Proof. vm_compute. reflexivity. Qed.

(** * Further properties of the parser *)

Section ParserMore.
Context `{MessageCodec} `{StatusTable}.
Import Parser.

Lemma drain_prefix toks pre msgs :
  drain toks (pre ++ msgs)
  = let '(o, toks', msgs') := drain toks msgs in (o, toks', pre ++ msgs').
Proof.
  revert msgs. induction toks as [|tok rest IH]; intros msgs; cbn; [done|].
  destruct (from_bytes tok) as [msg|]; [|done].
  rewrite <- app_assoc. apply IH.
Qed.

Lemma fed_only_appends {A} (op : M Tokenizer.t A) p :
  (on_tok op ≫= fun _ => _decode) p
  = let '(o, q) :=
      (on_tok op ≫= fun _ => _decode) {| messages := []; _tok := _tok p |} in
    (o, {| messages := messages p ++ messages q; _tok := _tok q |}).
Proof.
  destruct p as [msgs tk]. unfold mbind, M_bind, on_tok; cbn.
  destruct (op tk) as [[a|e] [f toks]]; cbn.
  - rewrite !_decode_drain.
    pose proof (drain_prefix toks msgs []) as Hp. rewrite app_nil_r in Hp.
    rewrite Hp. by destruct (drain toks []) as [[o toks'] msgs'].
  - by rewrite app_nil_r.
Qed.

(** X1.  Feeding only appends to the queue: on every path, also when an
    exception is raised, [feed] and [feed_byte] leave the messages that
    were queued in place and in order, and what they add, the outcome and
    the tokenizer they leave do not depend on what was queued. *)
Theorem feed_only_appends_to_queue p :
  (forall data,
     feed data p
     = let '(o, q) := feed data {| messages := []; _tok := _tok p |} in
       (o, {| messages := messages p ++ messages q; _tok := _tok q |}))
  /\ (forall byte,
     feed_byte byte p
     = let '(o, q) := feed_byte byte {| messages := []; _tok := _tok p |} in
       (o, {| messages := messages p ++ messages q; _tok := _tok q |}))
  /\ (forall data, messages p `prefix_of` messages (feed data p).2)
  /\ (forall byte, messages p `prefix_of` messages (feed_byte byte p).2).
Proof.
  split_and!; intros x.
  - apply (fed_only_appends (Tokenizer.feed x)).
  - apply (fed_only_appends (Tokenizer.feed_byte x)).
  - unfold feed. rewrite (fed_only_appends (Tokenizer.feed x)).
    destruct ((on_tok _ ≫= _) _) as [o q]; cbn. by eexists.
  - unfold feed_byte. rewrite (fed_only_appends (Tokenizer.feed_byte x)).
    destruct ((on_tok _ ≫= _) _) as [o q]; cbn. by eexists.
Qed.

Lemma drain_rejected pre bad post msgs new :
  Forall2 (fun tok msg => from_bytes tok = Some msg) pre new ->
  from_bytes bad = None ->
  drain (pre ++ bad :: post) msgs = (Raise DecodeError, post, msgs ++ new).
Proof.
  intros HF Hbad. rewrite drain_app, (drain_decoded _ _ _ HF); cbn.
  by rewrite Hbad.
Qed.

Lemma fed_then_rejected {A} (op : M Tokenizer.t A) p tk a pre bad post new :
  op (_tok p) = (Ok a, tk) ->
  Tokenizer.ready tk = pre ++ bad :: post ->
  Forall2 (fun tok msg => from_bytes tok = Some msg) pre new ->
  from_bytes bad = None ->
  (on_tok op ≫= fun _ => _decode) p
  = (Raise DecodeError,
     {| messages := messages p ++ new;
        _tok := {| Tokenizer.state := Tokenizer.state tk;
                   Tokenizer.ready := post |} |}).
Proof.
  intros Hop Hready HF Hbad. unfold mbind, M_bind, on_tok. rewrite Hop.
  destruct tk as [f toks]. cbn in *. subst toks.
  by rewrite _decode_drain, (drain_rejected _ _ _ _ _ HF Hbad).
Qed.

(** X2.  When the decoder rejects a ready token, [feed] and [feed_byte]
    raise DecodeError; the messages of the tokens before the rejected one
    have been queued, the rejected token is gone, and the tokens after it
    stay ready in the tokenizer, undecoded. *)
Theorem feed_raises_at_rejected_token p tk pre bad post new :
  Tokenizer.ready tk = pre ++ bad :: post ->
  Forall2 (fun tok msg => from_bytes tok = Some msg) pre new ->
  from_bytes bad = None ->
  (forall data,
     Tokenizer.feed data (_tok p) = (Ok tt, tk) ->
     feed data p
     = (Raise DecodeError,
        {| messages := messages p ++ new;
           _tok := {| Tokenizer.state := Tokenizer.state tk;
                      Tokenizer.ready := post |} |}))
  /\ (forall byte,
     Tokenizer.feed_byte byte (_tok p) = (Ok tt, tk) ->
     feed_byte byte p
     = (Raise DecodeError,
        {| messages := messages p ++ new;
           _tok := {| Tokenizer.state := Tokenizer.state tk;
                      Tokenizer.ready := post |} |})).
Proof.
  intros Hready HF Hbad. split; intros x Hx.
  - exact (fed_then_rejected (Tokenizer.feed x) p tk tt _ _ _ _
             Hx Hready HF Hbad).
  - exact (fed_then_rejected (Tokenizer.feed_byte x) p tk tt _ _ _ _
             Hx Hready HF Hbad).
Qed.

(** X3.  Asking for a message [k] times returns the first [k] queued
    messages in order and then [None] for every further call, and leaves
    the queue without its first [k] messages: [get_message] answers a
    message exactly [pending()] times.  The tokenizer is not touched. *)
Theorem get_message_k_times k p :
  get_messages k p
  = (Ok ((Some <$> take k (messages p))
         ++ replicate (k - length (messages p)) None),
     {| messages := drop k (messages p); _tok := _tok p |}).
Proof.
  revert p. induction k as [|k IH]; intros [msgs tk]; [done|].
  cbn [get_messages]. unfold mbind at 1, M_bind at 1.
  rewrite get_message_eq.
  destruct msgs as [|msg rest].
  - unfold mbind, M_bind. rewrite IH. cbn.
    rewrite !take_nil, !drop_nil. cbn. by rewrite Nat.sub_0_r.
  - unfold mbind, M_bind. rewrite IH. reflexivity.
Qed.

(** X4.  [parse] returns what [parse_all] returns first: on every input
    the two raise the same exception, or [parse_all] returns a list and
    [parse] its first element, [None] for the empty list. *)
Theorem parse_is_head_of_parse_all data :
  parse data
  = match parse_all data with
    | Ok msgs => Ok (head msgs)
    | Raise e => Raise e
    end.
Proof.
  unfold parse, parse_all, parse_run, parse_all_run.
  destruct (__init__ data) as [[[]|e] [msgs tk]]; [|done].
  rewrite __iter___collects, get_message_eq. by destruct msgs.
Qed.

End ParserMore.

(** * Further properties of [notes2pianoroll] *)

Section PianorollOfNotesMore.
Implicit Types (h : heap) (xs ys : list loc) (c : coo).

(** *** The sort is a permutation and puts the largest key last *)

Lemma insert_by_Permutation {A} (key : A -> Z) x (l : list A) :
  insert_by key x l ≡ₚ x :: l.
Proof.
  induction l as [|y l IH]; cbn; [done|].
  destruct (key x <=? key y); [done|].
  rewrite IH. apply Permutation_swap.
Qed.

Lemma sorted_Permutation {A} (key : A -> Z) (l : list A) :
  sorted key l ≡ₚ l.
Proof.
  induction l as [|x l IH]; cbn; [done|].
  by rewrite insert_by_Permutation, IH.
Qed.

Lemma StronglySorted_last {A} (key : A -> Z) (l : list A) z :
  StronglySorted (fun a b => key a <= key b) l ->
  last l = Some z ->
  Forall (fun y => key y <= key z) l.
Proof.
  induction 1 as [|y l Hl IH Hy]; intros Hlast; [constructor|].
  destruct l as [|y' l'].
  - cbn in Hlast. simplify_eq/=. repeat constructor. lia.
  - rewrite last_cons_cons in Hlast. constructor; [|by apply IH].
    apply last_Some_elem_of in Hlast.
    by eapply Forall_forall in Hy.
Qed.

(** *** The copies have the attributes of the originals *)

Lemma deepcopy_notes_copies (h0 : heap) xs : forall h memo,
  h0 ⊆ h ->
  (forall x y, memo !! x = Some y -> h !! y = Some (h0 !!! x)) ->
  Forall (fun x => is_Some (h0 !! x)) xs ->
  h ⊆ (deepcopy_notes h memo xs).1
  /\ Forall2 (fun x y => (deepcopy_notes h memo xs).1 !! y = Some (h0 !!! x))
       xs (deepcopy_notes h memo xs).2.
Proof.
  induction xs as [|x rest IH]; intros h memo Hsub Hmemo Hwf; cbn.
  - split; [done | constructor].
  - inversion_clear Hwf as [|? ? [n Hx] Hrest].
    destruct (memo !! x) as [y|] eqn:Hm.
    + destruct (IH h memo Hsub Hmemo Hrest) as [IH1 IH2].
      destruct (deepcopy_notes h memo rest) as [h' ys]; cbn in *.
      split; [done|]. constructor; [|done].
      eapply lookup_weaken; [|exact IH1]. eauto.
    + set (y := fresh (dom h)).
      assert (h !! y = None) as Hy.
      { apply (not_elem_of_dom (D := gset loc)), is_fresh. }
      assert (h !!! x = h0 !!! x) as Hval.
      { rewrite !lookup_total_alt, Hx.
        by rewrite (lookup_weaken h0 h x n Hx Hsub). }
      destruct (IH (<[y := h !!! x]> h) (<[x := y]> memo)) as [IH1 IH2];
        [| |done|].
      * etrans; [exact Hsub|]. by apply insert_subseteq.
      * intros x' y' Hl. destruct (decide (x = x')) as [->|Hne].
        -- rewrite lookup_insert_eq in Hl. simplify_eq/=.
           by rewrite lookup_insert_eq, Hval.
        -- rewrite lookup_insert_ne in Hl by done.
           rewrite lookup_insert_ne; [by apply Hmemo|].
           intros ->. apply Hmemo in Hl. congruence.
      * destruct (deepcopy_notes _ _ rest) as [h' ys]; cbn in *.
        split.
        -- etrans; [|exact IH1]. by apply insert_subseteq.
        -- constructor; [|done].
           eapply lookup_weaken; [|exact IH1].
           by rewrite lookup_insert_eq, Hval.
Qed.

Lemma deepcopy_copies h xs :
  Forall (fun x => is_Some (h !! x)) xs ->
  Forall2 (fun x y => (deepcopy h xs).1 !!! y = h !!! x) xs (deepcopy h xs).2.
Proof.
  intros Hwf. unfold deepcopy.
  destruct (deepcopy_notes_copies h xs h ∅) as [_ HF]; [done| |done|].
  { intros x y Hl. by rewrite lookup_empty in Hl. }
  eapply Forall2_impl; [exact HF|]. cbn. intros x y Hy.
  by rewrite lookup_total_alt, Hy.
Qed.

Lemma copy_has_original h xs y :
  Forall (fun x => is_Some (h !! x)) xs ->
  y ∈ (deepcopy h xs).2 ->
  exists x, x ∈ xs /\ (deepcopy h xs).1 !!! y = h !!! x.
Proof.
  intros Hwf Hy. apply list_elem_of_lookup in Hy as [k Hk].
  destruct (Forall2_lookup_r _ _ _ _ _ (deepcopy_copies h xs Hwf) Hk)
    as (x & Hx & Heq).
  exists x. split; [by eapply list_elem_of_lookup_2 | done].
Qed.

Lemma original_has_copy h xs x :
  Forall (fun x => is_Some (h !! x)) xs ->
  x ∈ xs ->
  exists y, y ∈ (deepcopy h xs).2 /\ (deepcopy h xs).1 !!! y = h !!! x.
Proof.
  intros Hwf Hx. apply list_elem_of_lookup in Hx as [k Hk].
  destruct (Forall2_lookup_l _ _ _ _ _ (deepcopy_copies h xs Hwf) Hk)
    as (y & Hy & Heq).
  exists y. split; [by eapply list_elem_of_lookup_2 | done].
Qed.

(** *** The shape *)

(** X5.  The pianoroll has [PITCH_RANGE] = 128 columns.  Its number of
    rows is [max_tick] when the argument is given, and otherwise the
    largest end time among the notes of the stream, 0 for an empty
    stream; when resampling is on, the resampling is applied to that
    number.  The end times are the ones the notes have in the caller's
    store: a zero-length note that the loop lengthens by one does not
    add a row. *)
Theorem notes2pianoroll_shape a h note_stream_ori :
  Forall (fun x => is_Some (h !! x)) note_stream_ori ->
  exists latest,
    shape (notes2pianoroll a h note_stream_ori).1
    = (match resample a with Some f => f | None => id end
         (default latest (max_tick a)), PITCH_RANGE)
    /\ (note_stream_ori = [] -> latest = 0)
    /\ Forall (fun x => end_ (h !!! x) <= latest) note_stream_ori
    /\ (note_stream_ori <> [] ->
        exists x, x ∈ note_stream_ori /\ latest = end_ (h !!! x)).
Proof.
  intros Hwf. unfold notes2pianoroll, prepare.
  pose proof (copy_has_original h note_stream_ori) as Hco.
  pose proof (original_has_copy h note_stream_ori) as Hoc.
  destruct (deepcopy h note_stream_ori) as [h1 ys] eqn:Hd; cbn in Hco, Hoc.
  set (key := fun x => end_ (h1 !!! x)).
  pose proof (sorted_sorted key ys) as Hsorted.
  pose proof (sorted_Permutation key ys) as Hperm.
  exists (match last (sorted key ys) with
          | Some x => end_ (h1 !!! x) | None => 0 end).
  split_and!.
  - destruct (max_tick a) as [m|], (resample a) as [f|]; cbn;
      by destruct (foldl _ _ _).
  - intros ->. unfold deepcopy in Hd. cbn in Hd. by simplify_eq/=.
  - apply Forall_forall. intros x Hx.
    destruct (Hoc x Hwf Hx) as (y & Hy & Heq).
    destruct (last (sorted key ys)) as [z|] eqn:Hlast.
    + pose proof (StronglySorted_last key _ z Hsorted Hlast) as Hle.
      rewrite <- Hperm in Hy.
      eapply Forall_forall in Hle; [|exact Hy].
      unfold key in Hle. by rewrite Heq in Hle.
    + apply last_None in Hlast. rewrite Hlast in Hperm.
      apply Permutation_nil_l in Hperm. subst ys. by apply elem_of_nil in Hy.
  - intros Hne.
    destruct (last (sorted key ys)) as [z|] eqn:Hlast.
    + apply last_Some_elem_of in Hlast. rewrite Hperm in Hlast.
      destruct (Hco z Hwf Hlast) as (x & Hx & Heq).
      exists x. by rewrite Heq.
    + apply last_None in Hlast. rewrite Hlast in Hperm.
      apply Permutation_nil_l in Hperm. subst ys.
      destruct note_stream_ori as [|x rest]; [done|].
      destruct (Hoc x Hwf) as (y & Hy & _); [by left|].
      by apply elem_of_nil in Hy.
Qed.

(** *** The three coordinate lists grow together *)

Lemma length_arange a b : length (arange a b) = Z.to_nat (b - a).
Proof. unfold arange. by rewrite length_fmap, length_seq. Qed.

Lemma length_times {A} (x : A) n : length (times x n) = Z.to_nat n.
Proof. apply length_replicate. Qed.

Lemma end_set_end h r v : end_ (set_end r v h !!! r) = v.
Proof. unfold set_end. by rewrite lookup_total_insert_eq. Qed.

Lemma start_set_end h r v x :
  start (set_end r v h !!! x) = start (h !!! x).
Proof.
  unfold set_end. destruct (decide (r = x)) as [->|Hne].
  - by rewrite lookup_total_insert_eq.
  - by rewrite lookup_total_insert_ne.
Qed.

Lemma fill_note_lengths a h c note :
  length (time_coo c) = length (pitch_coo c) ->
  length (pitch_coo c) = length (velocity_coo c) ->
  length (time_coo (fill_note a (h, c) note).2)
  = length (pitch_coo (fill_note a (h, c) note).2)
  /\ length (pitch_coo (fill_note a (h, c) note).2)
     = length (velocity_coo (fill_note a (h, c) note).2).
Proof.
  intros H1 H2. unfold fill_note.
  destruct (velocity (h !!! note) =? 0); [done|].
  destruct (keep_note a && (end_ (h !!! note) - start (h !!! note) =? 0))
    eqn:Hk; cbn.
  - apply andb_true_iff in Hk as [_ Hz]. apply Z.eqb_eq in Hz.
    rewrite !length_app, length_arange, !length_times.
    rewrite end_set_end, start_set_end.
    replace (end_ (h !!! note) + 1 - start (h !!! note)) with 1 by lia.
    lia.
  - rewrite !length_app, length_arange, !length_times. lia.
Qed.

Lemma fill_loop_lengths a xs : forall st,
  length (time_coo st.2) = length (pitch_coo st.2) ->
  length (pitch_coo st.2) = length (velocity_coo st.2) ->
  length (time_coo (foldl (fill_note a) st xs).2)
  = length (pitch_coo (foldl (fill_note a) st xs).2)
  /\ length (pitch_coo (foldl (fill_note a) st xs).2)
     = length (velocity_coo (foldl (fill_note a) st xs).2).
Proof.
  induction xs as [|x rest IH]; intros [h c] H1 H2; cbn [foldl]; [done|].
  destruct (fill_note_lengths a h c x H1 H2) as [H3 H4].
  by apply IH.
Qed.

(** X6.  The three lists handed to [csc_matrix] (row indices, column
    indices, values) always have the same length: every note adds as
    many time coordinates as pitch coordinates and velocities, also a
    zero-length note lengthened to one step and a note that ends before
    it starts, which adds nothing. *)
Theorem notes2pianoroll_coordinate_lists_same_length a h note_stream_ori :
  let c := entries (notes2pianoroll a h note_stream_ori).1 in
  length (time_coo c) = length (pitch_coo c)
  /\ length (pitch_coo c) = length (velocity_coo c).
Proof.
  unfold notes2pianoroll.
  destruct (prepare a h note_stream_ori) as [[h1 ys] mt].
  pose proof (fill_loop_lengths a ys (h1, empty_coo) eq_refl eq_refl) as Hl.
  by destruct (foldl (fill_note a) (h1, empty_coo) ys) as [h2 c].
Qed.

(** *** Pitch and velocity are never assigned *)

Lemma same_pv_set_start h h' r v :
  same_pitch_velocity h h' -> same_pitch_velocity h (set_start r v h').
Proof.
  intros Hpv y. unfold set_start. destruct (decide (r = y)) as [->|Hne].
  - rewrite lookup_total_insert_eq. apply Hpv.
  - rewrite lookup_total_insert_ne by done. apply Hpv.
Qed.

Lemma same_pv_set_end h h' r v :
  same_pitch_velocity h h' -> same_pitch_velocity h (set_end r v h').
Proof.
  intros Hpv y. unfold set_end. destruct (decide (r = y)) as [->|Hne].
  - rewrite lookup_total_insert_eq. apply Hpv.
  - rewrite lookup_total_insert_ne by done. apply Hpv.
Qed.

Lemma same_pv_resample_loop h f xs : forall h',
  same_pitch_velocity h h' ->
  same_pitch_velocity h (foldl (resample_note f) h' xs).
Proof.
  induction xs as [|x rest IH]; intros h' Hpv; cbn [foldl]; [done|].
  apply IH. unfold resample_note. by apply same_pv_set_end, same_pv_set_start.
Qed.

Lemma fill_loop_provenance a h (P : Z -> Z -> Prop) xs : forall st,
  same_pitch_velocity h st.1 ->
  Forall (fun y => P (pitch (h !!! y)) (velocity (h !!! y))) xs ->
  Forall (fun p => exists v, v <> 0 /\ P p v) (pitch_coo st.2) ->
  Forall (fun w => exists p v, v <> 0 /\ P p v /\ w = cell_of a v)
    (velocity_coo st.2) ->
  Forall (fun p => exists v, v <> 0 /\ P p v)
    (pitch_coo (foldl (fill_note a) st xs).2)
  /\ Forall (fun w => exists p v, v <> 0 /\ P p v /\ w = cell_of a v)
       (velocity_coo (foldl (fill_note a) st xs).2).
Proof.
  induction xs as [|x rest IH]; intros [h' c] Hpv HP Hp Hv; cbn [foldl];
    [done|].
  inversion_clear HP as [|? ? Hx Hrest].
  destruct (Hpv x) as [Hpx Hvx]. cbn in Hpx, Hvx.
  unfold fill_note at 2 4.
  destruct (velocity (h' !!! x) =? 0) eqn:Hz; [by apply IH|].
  apply Z.eqb_neq in Hz.
  destruct (keep_note a && (end_ (h' !!! x) - start (h' !!! x) =? 0));
    apply IH; cbn; try done.
  - by apply same_pv_set_end.
  - apply Forall_app; split; [done|]. apply Forall_replicate.
    destruct (same_pv_set_end h h' x (end_ (h' !!! x) + 1) Hpv x) as [-> _].
    exists (velocity (h !!! x)). split; [congruence | done].
  - apply Forall_app; split; [done|]. apply Forall_replicate.
    destruct (same_pv_set_end h h' x (end_ (h' !!! x) + 1) Hpv x) as [_ ->].
    exists (pitch (h !!! x)), (velocity (h !!! x)).
    split_and!; [congruence | done | done].
  - apply Forall_app; split; [done|]. apply Forall_replicate.
    rewrite Hpx. exists (velocity (h !!! x)). split; [congruence | done].
  - apply Forall_app; split; [done|]. apply Forall_replicate.
    rewrite Hvx. exists (pitch (h !!! x)), (velocity (h !!! x)).
    split_and!; [congruence | done | done].
Qed.

(** X7.  Every column index of the pianoroll entries is the pitch of a
    note of the stream whose velocity is not 0, and every value is the
    velocity of such a note, or its comparison with [binary_thres] when a
    threshold is given: resampling and the lengthening of zero-length
    notes change neither pitch nor velocity, and no entry has velocity
    0. *)
Theorem notes2pianoroll_entries_come_from_notes a h note_stream_ori :
  Forall (fun x => is_Some (h !! x)) note_stream_ori ->
  let c := entries (notes2pianoroll a h note_stream_ori).1 in
  Forall (fun p => exists x, x ∈ note_stream_ori
                             /\ velocity (h !!! x) <> 0
                             /\ p = pitch (h !!! x)) (pitch_coo c)
  /\ Forall (fun w => exists x, x ∈ note_stream_ori
                                /\ velocity (h !!! x) <> 0
                                /\ w = match binary_thres a with
                                       | Some thres =>
                                           Flag (Qlt_bool thres
                                                   (inject_Z (velocity (h !!! x))))
                                       | None => Vel (velocity (h !!! x))
                                       end) (velocity_coo c).
Proof.
  intros Hwf. unfold notes2pianoroll, prepare.
  pose proof (copy_has_original h note_stream_ori) as Hco.
  destruct (deepcopy h note_stream_ori) as [h1 ys]; cbn in Hco.
  set (key := fun x => end_ (h1 !!! x)).
  set (P := fun p v => exists x, x ∈ note_stream_ori
                                 /\ p = pitch (h !!! x)
                                 /\ v = velocity (h !!! x)).
  assert (Forall (fun y => P (pitch (h1 !!! y)) (velocity (h1 !!! y)))
            (sorted key ys)) as HP.
  { apply Forall_sorted, Forall_forall. intros y Hy.
    destruct (Hco y Hwf Hy) as (x & Hx & ->). by exists x. }
  assert (forall h2, same_pitch_velocity h1 h2 ->
            let c := (foldl (fill_note a) (h2, empty_coo) (sorted key ys)).2 in
            Forall (fun p => exists x, x ∈ note_stream_ori
                                       /\ velocity (h !!! x) <> 0
                                       /\ p = pitch (h !!! x)) (pitch_coo c)
            /\ Forall (fun w => exists x, x ∈ note_stream_ori
                                       /\ velocity (h !!! x) <> 0
                                       /\ w = cell_of a (velocity (h !!! x)))
                 (velocity_coo c)) as Hmain.
  { intros h2 Hpv.
    destruct (fill_loop_provenance a h1 P (sorted key ys) (h2, empty_coo)
                Hpv HP) as [Hp Hv]; [constructor | constructor |].
    split.
    - eapply Forall_impl; [exact Hp|]. cbn.
      intros p (v & Hv0 & x & Hx & -> & ->). eauto.
    - eapply Forall_impl; [exact Hv|]. cbn.
      intros w (p & v & Hv0 & (x & Hx & -> & ->) & ->). eauto. }
  destruct (resample a) as [f|]; cbn.
  - specialize (Hmain (foldl (resample_note f) h1 (sorted key ys))
                  (same_pv_resample_loop h1 f _ h1 (fun y => conj eq_refl eq_refl))).
    by destruct (foldl (fill_note a) _ _) as [h3 c].
  - specialize (Hmain h1 (fun y => conj eq_refl eq_refl)).
    by destruct (foldl (fill_note a) _ _) as [h3 c].
Qed.

(** *** Streams of distinct notes: the result on values *)













(** *** A zero-length note at the end of the stream *)





End PianorollOfNotesMore.

(** * Further properties of [pianoroll2notes] *)

Section NotesOfPianorollMore.

Lemma Qlt_bool_iff x y : Qlt_bool x y = true <-> (x < y)%Q.
Proof.
  split; [apply Qlt_bool_true|]. intros Hlt.
  destruct (Qlt_bool x y) eqn:Hb; [done|].
  apply Qlt_bool_false in Hb. by apply Qle_not_lt in Hb.
Qed.

(** *** Columns of [np.nonzero(m.T)] *)

Lemma flat_map_col (m : nat -> nat -> bool) (j : nat) (l : list nat) :
  flat_map (fun i => if m i j then [(j, i)] else []) l
  = pair j <$> filter (fun i => m i j = true) l.
Proof.
  induction l as [|i l IH]; [done|]. cbn [flat_map].
  rewrite filter_cons. destruct (m i j) eqn:Hm.
  - rewrite decide_True by done. cbn. by rewrite IH.
  - rewrite decide_False by congruence. by rewrite IH.
Qed.

Lemma nonzero_T_cols (m : nat -> nat -> bool) nr nc :
  nonzero_T m nr nc = flat_map (fun j => pair j <$> col_idx m j nr) (seq 0 nc).
Proof.
  unfold nonzero_T, col_idx. apply flat_map_ext. intros j.
  apply flat_map_col.
Qed.

Lemma col_idx_S (m : nat -> nat -> bool) j n :
  col_idx m j (S n) = col_idx m j n ++ (if m n j then [n] else []).
Proof.
  unfold col_idx. rewrite seq_S, filter_app. cbn [Nat.add]. f_equal.
  rewrite filter_cons, filter_nil.
  destruct (m n j); [by rewrite decide_True | by rewrite decide_False].
Qed.

(** *** Note-ons and note-offs of one column pair up into runs *)

Lemma diff_pos (a : ndarray) i j :
  (0 <? diff a i j) = negb (padded a i j) && padded a (S i) j.
Proof. unfold diff. by destruct (padded a i j), (padded a (S i) j). Qed.

Lemma diff_neg (a : ndarray) i j :
  (diff a i j <? 0) = padded a i j && negb (padded a (S i) j).
Proof. unfold diff. by destruct (padded a i j), (padded a (S i) j). Qed.

Lemma column_runs (a : ndarray) j n :
  exists P : list (nat * nat),
    col_idx (fun i j => diff a i j <? 0) j n = P.*2
    /\ Forall (padded_run a j) P
    /\ if padded a n j
       then exists s,
           col_idx (fun i j => 0 <? diff a i j) j n = P.*1 ++ [s]
           /\ (s < n)%nat /\ padded a s j = false
           /\ (forall i, (s < i <= n)%nat -> padded a i j = true)
           /\ (forall i, (i <= n)%nat -> padded a i j = true ->
                 (exists se, se ∈ P /\ (se.1 < i <= se.2)%nat) \/ (s < i)%nat)
       else col_idx (fun i j => 0 <? diff a i j) j n = P.*1
            /\ (forall i, (i <= n)%nat -> padded a i j = true ->
                  exists se, se ∈ P /\ (se.1 < i <= se.2)%nat).
Proof.
  induction n as [|n (P & HF & Hruns & IH)].
  - exists []. cbn [padded]. split_and!; try done.
    intros i Hi. replace i with 0%nat by lia. done.
  - rewrite !col_idx_S, diff_neg, diff_pos.
    destruct (padded a n j) eqn:Hn, (padded a (S n) j) eqn:HSn;
      cbn [negb andb].
    + (* the run goes on *)
      destruct IH as (s & HR & Hs & Hps & Hon & Hcov).
      exists P. rewrite !app_nil_r. split_and!; try done.
      exists s. split_and!; try done; try lia.
      * intros i Hi. destruct (decide (i = S n)) as [->|]; [done|].
        apply Hon. lia.
      * intros i Hi Hp. destruct (decide (i = S n)) as [->|].
        -- right. lia.
        -- apply Hcov; [lia | done].
    + (* a note-off at [n] closes the run *)
      destruct IH as (s & HR & Hs & Hps & Hon & Hcov).
      exists (P ++ [(s, n)]). rewrite !fmap_app, app_nil_r. cbn.
      split_and!.
      * by rewrite HF.
      * apply Forall_app. split; [done|]. repeat constructor; cbn; try done.
      * done.
      * intros i Hi Hp. destruct (decide (i = S n)) as [->|]; [congruence|].
        destruct (Hcov i) as [(se & Hse & Hin)|Hlt]; [lia | done | |].
        -- exists se. split; [apply elem_of_app; by left | done].
        -- exists (s, n). split; [apply elem_of_app; right; by left|].
           cbn. lia.
    + (* a note-on at [n] opens a run *)
      destruct IH as (HR & Hcov).
      exists P. rewrite !app_nil_r. split_and!; try done.
      exists n. split_and!; try done; try lia.
      * by rewrite HR.
      * intros i Hi. by replace i with (S n) by lia.
      * intros i Hi Hp. destruct (decide (i = S n)) as [->|].
        -- right. lia.
        -- left. apply Hcov; [lia | done].
    + (* nothing happens *)
      destruct IH as (HR & Hcov).
      exists P. rewrite !app_nil_r. split_and!; try done.
      intros i Hi Hp. destruct (decide (i = S n)) as [->|]; [congruence|].
      apply Hcov; [lia | done].
Qed.

Lemma column_final (a : ndarray) j :
  let R := col_idx (fun i j => 0 <? diff a i j) j (S (nrows a)) in
  let F := col_idx (fun i j => diff a i j <? 0) j (S (nrows a)) in
  length R = length F
  /\ Forall (padded_run a j) (zip R F)
  /\ (forall i, (i <= S (nrows a))%nat -> padded a i j = true ->
        exists se, se ∈ zip R F /\ (se.1 < i <= se.2)%nat).
Proof.
  destruct (column_runs a j (S (nrows a))) as (P & HF & Hruns & Hfin).
  rewrite padded_last in Hfin. destruct Hfin as [HR Hcov].
  cbn zeta. rewrite HR, HF, zip_fst_snd, !length_fmap. done.
Qed.

Lemma padded_run_is_run (a : ndarray) j se :
  (j < ncols a)%nat -> padded_run a j se -> is_run a j se.1 se.2.
Proof.
  destruct se as [s e]. unfold padded_run. cbn [fst snd].
  intros Hj (Hse & Hs & Hon & He).
  assert (forall i, padded a (S i) j = true ->
                    (i < nrows a)%nat /\ (0 < item a i j)%Q) as Hpos.
  { intros i. cbn [padded]. destruct (i <? nrows a)%nat eqn:Hi; [|done].
    apply Nat.ltb_lt in Hi. unfold binarized. intros Hb.
    by apply Qlt_bool_iff in Hb. }
  assert (forall i, (i < nrows a)%nat -> padded a (S i) j = false ->
                    ~ (0 < item a i j)%Q) as Hneg.
  { intros i Hi. cbn [padded]. apply Nat.ltb_lt in Hi. rewrite Hi.
    unfold binarized.
    intros Hb Hlt. apply Qlt_bool_iff in Hlt. congruence. }
  assert (e <= nrows a)%nat as Hle.
  { destruct e as [|e']; [lia|]. destruct (Hpos e'); [apply Hon|]; lia. }
  unfold is_run. split_and!; try lia.
  - intros i Hi. apply Hpos, Hon. lia.
  - destruct s as [|s']; [by left|right].
    replace (S s' - 1)%nat with s' by lia. apply Hneg; [lia | done].
  - destruct (decide (e = nrows a)); [by left|right].
    apply Hneg; [lia | done].
Qed.

(** *** The loop pairs the k-th note-on with the k-th note-off *)

Lemma notes_loop_exact (a : ndarray) scale (A : list (nat * nat)) :
  forall (B pre_on pre_off : list nat) notes,
  length pre_on = length pre_off ->
  length A = length B ->
  Forall (fun ps => (ps.1 < ncols a)%nat /\ (ps.2 < nrows a)%nat) A ->
  notes_loop a scale (pre_on ++ A.*2) (pre_off ++ B) (length pre_on) A.*1 notes
  = Ok (notes ++ ((fun pse => note_of_run a scale pse.1.1 pse.1.2 pse.2)
                    <$> zip A B)).
Proof.
  induction A as [|[p s] A IH]; intros B pre_on pre_off notes Hpre Hlen Hok.
  - cbn. by rewrite app_nil_r.
  - destruct B as [|e B]; [done|]. cbn in Hlen.
    inversion_clear Hok as [|? ? [Hp Hs] Hrest]. cbn in Hp, Hs.
    cbn [fmap list_fmap notes_loop fst snd zip zip_with].
    unfold index. rewrite !list_lookup_middle by done.
    cbn [mbind outcome_bind]. unfold getitem.
    apply Nat.ltb_lt in Hp, Hs. rewrite Hp, Hs.
    cbn [andb mbind outcome_bind].
    rewrite (cons_middle s pre_on), (cons_middle e pre_off), !app_assoc.
    replace (S (length pre_on)) with (length (pre_on ++ [s]))
      by (rewrite length_app; cbn; lia).
    rewrite IH; [|rewrite !length_app; cbn; lia | lia | done].
    by rewrite <- app_assoc.
Qed.

Lemma zip_columns (R F : nat -> list nat) (js : list nat) :
  (forall j, length (R j) = length (F j)) ->
  zip (flat_map (fun j => pair j <$> R j) js) (flat_map F js)
  = flat_map (fun j => (fun se => ((j, se.1), se.2)) <$> zip (R j) (F j)) js.
Proof.
  intros Hlen. induction js as [|j js IH]; [done|]. cbn [flat_map].
  rewrite zip_with_app by (rewrite length_fmap; apply Hlen).
  rewrite IH. f_equal.
  rewrite zip_with_fmap_l, zip_with_zip. apply list_fmap_ext.
  by intros k [s e] _.
Qed.

Lemma snd_flat_map_pair (F : nat -> list nat) (js : list nat) :
  (flat_map (fun j => pair j <$> F j) js).*2 = flat_map F js.
Proof.
  induction js as [|j js IH]; [done|]. cbn [flat_map].
  rewrite fmap_app, IH. f_equal.
  rewrite <- list_fmap_compose. apply list_fmap_id.
Qed.

(** The list of notes before the final sort. *)
Lemma pianoroll2notes_runs (a : ndarray) scale :
  pianoroll2notes a scale
  = Ok (sorted start
          ((fun pse => note_of_run a scale pse.1.1 pse.1.2 pse.2)
             <$> run_list a))
  /\ Forall (fun pse => is_run a pse.1.1 pse.1.2 pse.2) (run_list a)
  /\ (forall i p, (i < nrows a)%nat -> (p < ncols a)%nat ->
        (0 < item a i p)%Q ->
        exists st ed, (p, st, ed) ∈ run_list a /\ (st <= i < ed)%nat).
Proof.
  unfold run_list.
  set (R := fun j => col_idx (fun i j => 0 <? diff a i j) j (S (nrows a))).
  set (F := fun j => col_idx (fun i j => diff a i j <? 0) j (S (nrows a))).
  set (A := flat_map (fun j => pair j <$> R j) (seq 0 (ncols a))).
  assert (forall j, length (R j) = length (F j)) as Hlen
    by (intros j; apply (column_final a j)).
  assert (forall pse, pse ∈ zip A (flat_map F (seq 0 (ncols a))) ->
            exists j, (j < ncols a)%nat /\ pse.1.1 = j
                      /\ (pse.1.2, pse.2) ∈ zip (R j) (F j)) as Hmem.
  { intros pse. unfold A. rewrite zip_columns by done.
    rewrite list_elem_of_In, in_flat_map. intros (j & Hj & Hin).
    apply in_seq in Hj. apply list_elem_of_In, list_elem_of_fmap in Hin
      as ([s e] & -> & Hse).
    exists j. split_and!; [lia | done | done]. }
  split_and!.
  - unfold pianoroll2notes. cbv zeta. rewrite !nonzero_T_cols.
    change (notes_loop a scale A.*2
              (flat_map (fun j => pair j <$> F j) (seq 0 (ncols a))).*2
              0%nat A.*1 []
            ≫= (fun notes => Ok (sorted start notes)) = 
            Ok (sorted start
                  ((fun pse => note_of_run a scale pse.1.1 pse.1.2 pse.2)
                     <$> zip A (flat_map F (seq 0 (ncols a)))))).
    rewrite (snd_flat_map_pair F).
    pose proof (notes_loop_exact a scale A (flat_map F (seq 0 (ncols a)))
                  [] [] [] eq_refl) as Hloop.
    cbn [app length] in Hloop. rewrite Hloop; [done| |].
    + unfold A. rewrite <- (snd_flat_map_pair F), !length_fmap.
      apply length_flat_map_ext. intros j. by rewrite !length_fmap.
    + apply Forall_forall. intros [j s]. unfold A.
      rewrite list_elem_of_In, in_flat_map. intros (j' & Hj & Hin).
      apply in_seq in Hj. apply list_elem_of_In, list_elem_of_fmap in Hin
        as (s' & [= -> ->] & Hs). cbn. split; [lia|].
      unfold R, col_idx in Hs. apply list_elem_of_filter in Hs as [Hd _].
      by eapply note_on_row.
  - apply Forall_forall. intros [[p s] e] Hin.
    destruct (Hmem _ Hin) as (j & Hj & <- & Hse). cbn in *.
    apply (padded_run_is_run a p (s, e) Hj).
    destruct (column_final a p) as (_ & Hruns & _).
    by eapply Forall_forall in Hruns.
  - intros i p Hi Hp Hpos.
    destruct (column_final a p) as (_ & _ & Hcov).
    destruct (Hcov (S i)) as ([s e] & Hse & Hin); [lia| |].
    { cbn [padded]. apply Nat.ltb_lt in Hi. rewrite Hi.
      by apply Qlt_bool_iff. }
    cbn in Hin. exists s, e. split; [|lia].
    unfold A. rewrite zip_columns by done.
    apply list_elem_of_In, in_flat_map. exists p. split.
    + apply in_seq. lia.
    + apply list_elem_of_In, list_elem_of_fmap. by exists (s, e).
Qed.

(** X8.  Every note that [pianoroll2notes] returns is a maximal run of
    positive items in one column of the pianoroll: its pitch is the
    column, its start and end are the resampled first row of the run and
    the resampled row after the last, the run is not empty, and its
    velocity is the clamped item of the first row of the run. *)
Theorem pianoroll2notes_notes_are_runs pianoroll scale :
  exists notes,
    pianoroll2notes pianoroll scale = Ok notes
    /\ Forall (fun n => exists p st ed,
                 is_run pianoroll p st ed
                 /\ n = note_of_run pianoroll scale p st ed) notes.
Proof.
  destruct (pianoroll2notes_runs pianoroll scale) as (-> & Hruns & _).
  eexists. split; [done|].
  apply Forall_sorted, Forall_fmap.
  eapply Forall_impl; [exact Hruns|]. cbn. intros [[p s] e] Hr. eauto.
Qed.

(** X9.  Every positive item of the pianoroll is covered: the returned
    list has a note for the maximal run of positive items that contains
    the item. *)
Theorem pianoroll2notes_covers_positive_items pianoroll scale i p :
  (i < nrows pianoroll)%nat ->
  (p < ncols pianoroll)%nat ->
  (0 < item pianoroll i p)%Q ->
  exists notes st ed,
    pianoroll2notes pianoroll scale = Ok notes
    /\ is_run pianoroll p st ed
    /\ (st <= i < ed)%nat
    /\ note_of_run pianoroll scale p st ed ∈ notes.
Proof.
  intros Hi Hp Hpos.
  destruct (pianoroll2notes_runs pianoroll scale) as (-> & Hruns & Hcov).
  destruct (Hcov i p Hi Hp Hpos) as (st & ed & Hin & Hbetween).
  eexists _, st, ed. split; [done|]. split; [|split; [done|]].
  - exact (proj1 (Forall_forall _ _) Hruns (p, st, ed) Hin).
  - rewrite sorted_Permutation. apply list_elem_of_fmap.
    by exists (p, st, ed).
Qed.

(** X10.  A pianoroll without a positive item, in particular one without
    rows or without columns, gives the empty list of notes. *)
Theorem pianoroll2notes_nothing_positive pianoroll scale :
  (forall i p, (i < nrows pianoroll)%nat -> (p < ncols pianoroll)%nat ->
     ~ (0 < item pianoroll i p)%Q) ->
  pianoroll2notes pianoroll scale = Ok [].
Proof.
  intros Hnone.
  destruct (pianoroll2notes_runs pianoroll scale) as (-> & Hruns & _).
  destruct (run_list pianoroll) as [|[[p s] e] T]; [done|].
  inversion_clear Hruns as [|? ? Hr _]. cbn in Hr.
  destruct Hr as (Hse & Hp & Hon & _).
  destruct (Hnone s p); [lia | done | apply Hon; lia].
Qed.

Lemma run_unique (a : ndarray) p s e s' e' :
  is_run a p s e -> is_run a p s' e' -> (s' <= s < e')%nat ->
  s = s' /\ e = e'.
Proof.
  intros (Hse & _ & Hon & Hbefore & Hafter)
         (Hse' & _ & Hon' & Hbefore' & Hafter') Hin.
  assert (s = s') as <-.
  { destruct (decide (s = s')); [done|exfalso].
    destruct Hbefore as [->|Hneg]; [lia|]. apply Hneg, Hon'. lia. }
  split; [done|].
  destruct (decide (e = e')); [done|exfalso].
  destruct (decide (e < e')%nat).
  - destruct Hafter as [->|Hneg]; [lia|]. apply Hneg, Hon'. lia.
  - destruct Hafter' as [->|Hneg]; [lia|]. apply Hneg, Hon. lia.
Qed.

Lemma NoDup_flat_map_pair (R : nat -> list nat) (js : list nat) :
  NoDup js -> (forall j, NoDup (R j)) ->
  NoDup (flat_map (fun j => pair j <$> R j) js).
Proof.
  intros Hjs HR. induction Hjs as [|j js Hj Hjs IH]; [constructor|].
  cbn [flat_map]. apply NoDup_app. split_and!.
  - apply (NoDup_fmap_2 _), HR.
  - intros [j' s] Hin1 Hin2.
    apply list_elem_of_fmap in Hin1 as (s' & [= -> ->] & _).
    apply list_elem_of_In, in_flat_map in Hin2 as (j'' & Hj'' & Hin2).
    apply list_elem_of_In, list_elem_of_fmap in Hin2 as (s'' & [= -> ->] & _).
    by apply list_elem_of_In in Hj''.
  - done.
Qed.

Lemma run_list_NoDup (a : ndarray) : NoDup (run_list a).
Proof.
  unfold run_list. apply (NoDup_fmap_1 fst).
  rewrite fst_zip.
  - apply NoDup_flat_map_pair; [apply NoDup_seq|].
    intros j. apply NoDup_filter, NoDup_seq.
  - rewrite <- (snd_flat_map_pair (fun j => col_idx _ j _)), length_fmap.
    apply Nat.eq_le_incl, length_flat_map_ext. intros j.
    rewrite !length_fmap. apply (column_final a j).
Qed.

(** X12.  [pianoroll2notes] returns one note for each maximal run of
    positive items and nothing else: the returned list is a
    rearrangement of the notes of a duplicate-free list that holds
    exactly the maximal runs of the pianoroll. *)
Theorem pianoroll2notes_one_note_per_run pianoroll scale :
  exists (runs : list (nat * nat * nat)) notes,
    NoDup runs
    /\ (forall p st ed, (p, st, ed) ∈ runs <-> is_run pianoroll p st ed)
    /\ pianoroll2notes pianoroll scale = Ok notes
    /\ notes ≡ₚ (fun pse => note_of_run pianoroll scale pse.1.1 pse.1.2 pse.2)
                   <$> runs.
Proof.
  destruct (pianoroll2notes_runs pianoroll scale) as (Heq & Hruns & Hcov).
  exists (run_list pianoroll). eexists. split_and!.
  - apply run_list_NoDup.
  - intros p st ed. split.
    + intros Hin. exact (proj1 (Forall_forall _ _) Hruns (p, st, ed) Hin).
    + intros Hr. pose proof Hr as (Hse & Hp & Hon & _).
      destruct (Hcov st p) as (st' & ed' & Hin & Hbetween);
        [lia | done | apply Hon; lia |].
      pose proof (proj1 (Forall_forall _ _) Hruns _ Hin) as Hr'. cbn in Hr'.
      by destruct (run_unique _ _ _ _ _ _ Hr Hr' Hbetween) as [-> ->].
  - exact Heq.
  - apply sorted_Permutation.
Qed.

(** X11.  On an integer item the velocity of the note is the item
    clipped to 0..127: a velocity between 1 and 127 written into a
    pianoroll is read back unchanged, a larger one as 127. *)
Theorem velocity_of_integer_item z :
  int (clamp (inject_Z z)) = Z.max 0 (Z.min 127 z).
Proof.
  unfold clamp.
  destruct (Qlt_bool (inject_Z z) 127) eqn:Hhi.
  - apply Qlt_bool_true in Hhi. unfold Qlt in Hhi. cbn in Hhi.
    destruct (Qlt_bool 0 (inject_Z z)) eqn:Hlo.
    + apply Qlt_bool_true in Hlo. unfold Qlt in Hlo. cbn in Hlo.
      unfold int; cbn. rewrite Z.quot_1_r. lia.
    + apply Qlt_bool_false in Hlo. unfold Qle in Hlo. cbn in Hlo.
      unfold int; cbn. rewrite Z.quot_1_r. lia.
  - apply Qlt_bool_false in Hhi. unfold Qle in Hhi. cbn in Hhi.
    replace (Qlt_bool 0 127) with true by reflexivity.
    unfold int; cbn. rewrite Z.quot_1_r. lia.
Qed.

End NotesOfPianorollMore.

(** * The further properties at concrete inputs *)

(** A sysex message that the decoder rejects, between a note-on and a
    clock byte. *)
Lemma feed_raises_at_rejected_token_witness :
  @Tokenizer.feed midi_status_table [0x90; 60; 127; 0xF0; 0xF7; 0xF8]
    Tokenizer.new
  = (Ok tt, after_sysex)
  /\ @from_bytes no_sysex_codec [0xF0; 0xF7] = None
  /\ @Parser.feed no_sysex_codec midi_status_table
       [0x90; 60; 127; 0xF0; 0xF7; 0xF8] new_strict_parser
     = (Raise DecodeError,
        {| Parser.messages := strict [[0x90; 60; 127]];
           Parser._tok := {| Tokenizer.state := Tokenizer.state after_sysex;
                             Tokenizer.ready := [[0xF8]] |} |}).
Proof.
  split; [reflexivity|]. split; [reflexivity|].
  apply (proj1 (@feed_raises_at_rejected_token
                  no_sysex_codec midi_status_table new_strict_parser
                  after_sysex [[0x90; 60; 127]] [0xF0; 0xF7] [[0xF8]]
                  [[0x90; 60; 127]] eq_refl
                  ltac:(repeat constructor) eq_refl)).
  reflexivity.
Defined.

Example get_message_five_times :
  (@get_messages raw_codec 5
     {| Parser.messages := raw [[0xF8]; [0xFA]; [0xFC]];
        Parser._tok := Tokenizer.new |}).1
  = Ok [Some [0xF8]; Some [0xFA]; Some [0xFC]; None; None].
Proof. reflexivity. Qed.

Lemma three_notes_allocated :
  Forall (fun x => is_Some (three_notes !! x)) [0; 1; 2; 0]%nat.
Proof. repeat constructor; by eexists. Defined.

Lemma notes2pianoroll_shape_witness :
  Forall (fun x => is_Some (three_notes !! x)) [0; 1; 2; 0]%nat
  /\ exists latest,
      shape (notes2pianoroll doubling_args three_notes [0; 1; 2; 0]%nat).1
      = (2 * latest, PITCH_RANGE)
      /\ ([0; 1; 2; 0]%nat = [] -> latest = 0)
      /\ Forall (fun x => end_ (three_notes !!! x) <= latest) [0; 1; 2; 0]%nat
      /\ ([0; 1; 2; 0]%nat <> [] ->
          exists x, x ∈ [0; 1; 2; 0]%nat /\ latest = end_ (three_notes !!! x)).
Proof.
  split; [exact three_notes_allocated|].
  exact (notes2pianoroll_shape doubling_args three_notes [0; 1; 2; 0]%nat
           three_notes_allocated).
Defined.

Lemma notes2pianoroll_entries_come_from_notes_witness :
  Forall (fun x => is_Some (three_notes !! x)) [0; 1; 2; 0]%nat
  /\ Forall (fun p => exists x, x ∈ [0; 1; 2; 0]%nat
                                /\ velocity (three_notes !!! x) <> 0
                                /\ p = pitch (three_notes !!! x))
       (pitch_coo
          (entries (notes2pianoroll default_args three_notes
                      [0; 1; 2; 0]%nat).1)).
Proof.
  split; [exact three_notes_allocated|].
  exact (proj1 (notes2pianoroll_entries_come_from_notes default_args
                  three_notes [0; 1; 2; 0]%nat three_notes_allocated)).
Defined.

Lemma pianoroll2notes_covers_positive_items_witness :
  (1 < nrows two_pitches)%nat
  /\ (0 < ncols two_pitches)%nat
  /\ (0 < item two_pitches 1 0)%Q
  /\ exists notes st ed,
      pianoroll2notes two_pitches (fun t => t) = Ok notes
      /\ is_run two_pitches 0 st ed
      /\ (st <= 1 < ed)%nat
      /\ note_of_run two_pitches (fun t => t) 0 st ed ∈ notes.
Proof.
  assert (1 < nrows two_pitches)%nat as Hi by (cbn; lia).
  assert (0 < ncols two_pitches)%nat as Hp by (cbn; lia).
  assert (0 < item two_pitches 1 0)%Q as Hpos by reflexivity.
  split; [exact Hi|]. split; [exact Hp|]. split; [exact Hpos|].
  exact (pianoroll2notes_covers_positive_items two_pitches (fun t => t)
           1%nat 0%nat Hi Hp Hpos).
Defined.

Lemma silence_has_no_positive_item i p :
  (i < nrows silence)%nat -> (p < ncols silence)%nat ->
  ~ (0 < item silence i p)%Q.
Proof.
  cbn. intros Hi Hp.
  destruct i as [|[|i]]; [| |lia]; (destruct p as [|[|p]]; [| |lia]);
    by intros [=].
Defined.

Lemma pianoroll2notes_nothing_positive_witness :
  (forall i p, (i < nrows silence)%nat -> (p < ncols silence)%nat ->
     ~ (0 < item silence i p)%Q)
  /\ pianoroll2notes silence (fun t => 3 * t) = Ok [].
Proof.
  split; [exact silence_has_no_positive_item|].
  exact (pianoroll2notes_nothing_positive silence (fun t => 3 * t)
           silence_has_no_positive_item).
Defined.

Example pianoroll2notes_empty_array :
  pianoroll2notes (array_of_rows 128 []) (fun t => t) = Ok [].
Proof. reflexivity. Qed.

Example velocity_of_fraction :
  int (clamp (1 # 2)) = 0 /\ int (clamp (255 # 2)) = 127
  /\ int (clamp (253 # 2)) = 126.
Proof. repeat split. Qed.




Example entries_of_three_values :
  entries_of_values doubling_args
    ((fun x => three_notes !!! x) <$> [0; 1; 2]%nat)
  = {| time_coo := [4; 0; 1; 2; 3; 4; 5; 6; 7];
       pitch_coo := [62; 60; 60; 60; 60; 60; 60; 60; 60];
       velocity_coo := [Vel 90; Vel 100; Vel 100; Vel 100; Vel 100;
                        Vel 100; Vel 100; Vel 100; Vel 100] |}.
Proof. vm_compute. reflexivity. Qed.

Example run_list_two_pitches :
  run_list two_pitches = [(0, 1, 3); (1, 0, 2); (1, 3, 4)]%nat.
Proof. vm_compute. reflexivity. Qed.


Example zero_length_note_alone :
  (notes2pianoroll default_args three_notes [2%nat]).1
  = {| entries := {| time_coo := [2]; pitch_coo := [62];
                     velocity_coo := [Vel 90] |};
       shape := (2, 128); sparse := false |}.
Proof. vm_compute. reflexivity. Qed.
